(** * HttpApi: request batching and pagination translation

    A shallow embedding of [src/api/HttpApi] (the class [HttpApi]) together
    with the library functions it calls, and the properties of its loaders
    and of its two pagination strategies.

    Conventions of the embedding:
    - a JavaScript value is a [value]; an array may carry the [meta]
      property that a paged backend result has ([Array<T> & { meta }]);
    - an object is the list of its own enumerable properties in enumeration
      order (index keys first, in ascending order, then the other keys in
      the order they were added), since [querystring.stringify] and the
      spread operator observe that order;
    - a settled promise is an [Outcome]: [Resolved v] or [Rejected e]; an
      [async] function body is written in the [Outcome] monad, a [throw]
      being [Rejected];
    - strings are byte strings (the UTF-8 encoding of the JavaScript
      string), numbers are the integer-valued doubles and [NaN]. *)

From Stdlib Require Import ZArith Ascii String.
From stdpp Require Import gmap strings list pretty.

Set Warnings "-register-all,-clear-no-such-hyp".

Open Scope string_scope.
Open Scope list_scope.
Open Scope Z_scope.

(** ** JavaScript values *)

Inductive value :=
| VUndefined
| VNull
| VBool (b : bool)
| VNum (n : Z)
| VNaN
| VStr (s : string)
| VError (msg : string)                       (* an instance of Error *)
| VObj (fields : list (string * value))
| VArr (elems : list value) (meta : option value).

(** An object as its own enumerable properties, in enumeration order. *)
Abbreviation Obj := (list (string * value)).

(** [!!v] *)
Definition truthy (v : value) : bool :=
  match v with
  | VUndefined | VNull | VNaN => false
  | VBool b => b
  | VNum n => negb (n =? 0)
  | VStr s => negb (String.eqb s "")
  | VError _ | VObj _ | VArr _ _ => true
  end.

(** [v instanceof Error] *)
Definition isError (v : value) : bool :=
  match v with VError _ => true | _ => false end.

(** [Array.isArray(v)] *)
Definition isArray (v : value) : bool :=
  match v with VArr _ _ => true | _ => false end.

(** [v == null] *)
Definition nullish (v : value) : bool :=
  match v with VUndefined | VNull => true | _ => false end.

(** [typeof v] *)
Definition typeof (v : value) : string :=
  match v with
  | VUndefined => "undefined"
  | VBool _ => "boolean"
  | VNum _ | VNaN => "number"
  | VStr _ => "string"
  | VNull | VError _ | VObj _ | VArr _ _ => "object"
  end.

(** ** Settled promises *)

Inductive Outcome (A : Type) :=
| Resolved (a : A)
| Rejected (e : value).
Arguments Resolved {A} a.
Arguments Rejected {A} e.

#[global] Instance Outcome_ret : MRet Outcome := @Resolved.
#[global] Instance Outcome_bind : MBind Outcome := λ A B f m,
  match m with
  | Resolved a => f a
  | Rejected e => Rejected e
  end.

#[global] Instance Outcome_fmap : FMap Outcome := λ A B f m,
  match m with
  | Resolved a => Resolved (f a)
  | Rejected e => Rejected e
  end.

(** [promise.catch(e => e)] resolves, with the value or with the reason of
    [promise]. *)
Definition settled_value (p : Outcome value) : value :=
  match p with
  | Resolved v => v
  | Rejected e => e
  end.

Definition catch_id (p : Outcome value) : Outcome value :=
  Resolved (settled_value p).

(** [invariant(condition, message)] of the [invariant] package: throws an
    [Error] carrying [message] when [condition] is falsy. *)
Definition invariant (condition : bool) (message : string) : Outcome unit :=
  if condition then Resolved () else Rejected (VError message).

(** ** Objects *)

(** [o[k]], [undefined] when [k] is not a property of [o]. *)
Fixpoint obj_get (o : Obj) (k : string) : value :=
  match o with
  | [] => VUndefined
  | (k', v) :: o' => if String.eqb k' k then v else obj_get o' k
  end.

Fixpoint obj_has (o : Obj) (k : string) : bool :=
  match o with
  | [] => false
  | (k', _) :: o' => String.eqb k' k || obj_has o' k
  end.

(** The array index a key spells, if it does: a canonical decimal numeral
    below [2^32 - 1]. An object enumerates such keys first, in ascending
    order, and then its other keys in the order they were added. *)
Fixpoint digits_value (acc : N) (s : string) : option N :=
  match s with
  | EmptyString => Some acc
  | String c s' =>
      let n := N_of_ascii c in
      if ((48 <=? n) && (n <=? 57))%N
      then digits_value (10 * acc + (n - 48))%N s'
      else None
  end.

Definition array_index (k : string) : option N :=
  match k with
  | EmptyString => None
  | _ =>
      match digits_value 0 k with
      | Some n =>
          if String.eqb (pretty n) k && (n <? 4294967295)%N then Some n
          else None
      | None => None
      end
  end.

(** The value of an existing property is replaced where it is. *)
Fixpoint obj_replace (o : Obj) (k : string) (v : value) : Obj :=
  match o with
  | [] => []
  | (k', v') :: o' =>
      if String.eqb k' k then (k', v) :: o' else (k', v') :: obj_replace o' k v
  end.

(** A new index key goes before the first key that is no index or a
    greater one. *)
Fixpoint obj_insert_index (o : Obj) (n : N) (k : string) (v : value) : Obj :=
  match o with
  | [] => [(k, v)]
  | (k', v') :: o' =>
      match array_index k' with
      | Some n' =>
          if (n' <? n)%N then (k', v') :: obj_insert_index o' n k v
          else (k, v) :: o
      | None => (k, v) :: o
      end
  end.

(** [o[k] = v]: an existing property keeps its place; a new one is
    enumerated among the index keys when it is one, and last when not. *)
Definition obj_set (o : Obj) (k : string) (v : value) : Obj :=
  if obj_has o k then obj_replace o k v
  else
    match array_index k with
    | Some n => obj_insert_index o n k v
    | None => o ++ [(k, v)]
    end.

(** [{ ...o, ...src }] *)
Definition obj_spread (o src : Obj) : Obj :=
  foldl (λ acc kv, obj_set acc kv.1 kv.2) o src.

(** The rest of a destructuring, [const { k1, .., kn, ...rest } = o], and
    lodash's [omit(o, ks)] on own properties. *)
Definition omit (o : Obj) (ks : list string) : Obj :=
  filter (λ kv, kv.1 ∉ ks) o.

(** lodash's [pick(o, ks)]: the properties named by [ks] that [o] has, in
    the order of [ks]. *)
Definition pick (o : Obj) (ks : list string) : Obj :=
  foldl (λ acc k, if obj_has o k then obj_set acc k (obj_get o k) else acc)
        [] ks.

(** The own enumerable string-keyed properties of a value, as the object
    rest pattern copies them. *)
Definition index_props (l : list value) : Obj :=
  imap (λ i v, (pretty i, v)) l.

Definition string_chars (s : string) : list value :=
  (λ c, VStr (String c EmptyString)) <$> list_ascii_of_string s.

Definition own_enumerable (v : value) : Obj :=
  match v with
  | VObj fields => fields
  | VArr elems meta =>
      index_props elems ++
      match meta with Some m => [("meta", m)] | None => [] end
  | VStr s => index_props (string_chars s)
  | _ => []
  end.

(** [v.meta] *)
Definition get_meta (v : value) : value :=
  match v with
  | VObj fields => obj_get fields "meta"
  | VArr _ (Some m) => m
  | _ => VUndefined
  end.

(** [v.name] for a name that no prototype defines and that is neither
    [length] nor [meta]. *)
Definition get_named (v : value) (name : string) : value :=
  match v with
  | VObj fields => obj_get fields name
  | _ => VUndefined
  end.

(** [l[i]] on the elements of an array: [undefined] out of range. *)
Definition elem_at (l : list value) (i : Z) : value :=
  if i <? 0 then VUndefined else default VUndefined (l !! Z.to_nat i).

(** [v[i]] for an integer [i] and a [v] that is not [null] or
    [undefined]. *)
Definition index_value (v : value) (i : Z) : value :=
  match v with
  | VArr elems _ => elem_at elems i
  | VStr s => elem_at (string_chars s) i
  | VObj fields => obj_get fields (pretty i)
  | _ => VUndefined
  end.

(** [v[i]]: reading a property of [null] or [undefined] throws a
    [TypeError]. *)
Definition get_index (v : value) (i : Z) : Outcome value :=
  if nullish v
  then Rejected (VError "TypeError: Cannot read properties of undefined")
  else Resolved (index_value v i).

(** ** Strings *)

(** [s.split(sep)] for a one-character separator. *)
Fixpoint split_on (sep : ascii) (s : string) : list string :=
  match s with
  | EmptyString => [EmptyString]
  | String c s' =>
      if Ascii.eqb c sep then EmptyString :: split_on sep s'
      else match split_on sep s' with
           | w :: ws => String c w :: ws
           | [] => [String c EmptyString]
           end
  end.

(** [ss.join(sep)] *)
Definition join_with (sep : string) (ss : list string) : string :=
  String.concat sep ss.

(** ** The query-string codec

    [type QueryString = { parse, stringify }]; the field [qs] of the class
    holds one, Node's [querystring] unless it is replaced. *)

Record QueryString := {
  parse : string → Obj;
  stringify : Obj → string;
}.

Module querystring.

Definition hex_digit (n : N) : ascii :=
  default "0"%char (list_ascii_of_string "0123456789ABCDEF" !! N.to_nat n).

(** The characters [qsEscape] leaves alone: [A-Za-z0-9-_.!~*'()]. *)
Definition unreserved (c : ascii) : bool :=
  let n := N_of_ascii c in
  ((65 <=? n) && (n <=? 90) || (97 <=? n) && (n <=? 122) ||
   (48 <=? n) && (n <=? 57) ||
   bool_decide (n ∈ [45; 95; 46; 33; 126; 42; 39; 40; 41]))%N.

(** [querystring.escape]: percent-encoding of every other byte. *)
Fixpoint escape (s : string) : string :=
  match s with
  | EmptyString => EmptyString
  | String c s' =>
      if unreserved c then String c (escape s')
      else
        let n := N_of_ascii c in
        String "%" (String (hex_digit (n / 16)) (String (hex_digit (n mod 16))
          (escape s')))
  end.

(** [stringifyPrimitive]: strings, finite numbers and booleans print,
    everything else is the empty string. *)
Definition stringifyPrimitive (v : value) : string :=
  match v with
  | VStr s => s
  | VNum n => pretty n
  | VBool true => "true"
  | VBool false => "false"
  | _ => ""
  end.

(** The [key=value] fields one property contributes: one per element for
    an array value (none for an empty array), one otherwise. *)
Definition fields (kv : string * value) : list string :=
  let ks := escape kv.1 +:+ "=" in
  match kv.2 with
  | VArr elems _ => (λ v, ks +:+ escape (stringifyPrimitive v)) <$> elems
  | v => [ks +:+ escape (stringifyPrimitive v)]
  end.

(** [querystring.stringify(obj)]: the fields of the own properties, in
    enumeration order, joined by [&]. *)
Definition stringify (o : Obj) : string :=
  join_with "&" (o ≫= fields).

Definition hex_value (c : ascii) : option N :=
  let n := N_of_ascii c in
  (if (48 <=? n) && (n <=? 57) then Some (n - 48)
   else if (65 <=? n) && (n <=? 70) then Some (n - 55)
   else if (97 <=? n) && (n <=? 102) then Some (n - 87)
   else None)%N.

(** Percent-decoding; an escape that is not two hex digits stays as it
    is. *)
Fixpoint percent_decode (s : string) : string :=
  match s with
  | EmptyString => EmptyString
  | String c s' =>
      let keep := String c (percent_decode s') in
      if Ascii.eqb c "%" then
        match s' with
        | String a (String b rest) =>
            match hex_value a, hex_value b with
            | Some x, Some y =>
                String (ascii_of_N (16 * x + y)) (percent_decode rest)
            | _, _ => keep
            end
        | _ => keep
        end
      else keep
  end.

Fixpoint plus_to_space (s : string) : string :=
  match s with
  | EmptyString => EmptyString
  | String c s' =>
      String (if Ascii.eqb c "+" then " "%char else c) (plus_to_space s')
  end.

(** [querystring.unescape] after the [+] of form encoding is read as a
    space. *)
Definition unescape (s : string) : string :=
  percent_decode (plus_to_space s).

(** A repeated key collects its values in an array. *)
Definition addKeyValue (o : Obj) (k v : string) : Obj :=
  if obj_has o k then
    match obj_get o k with
    | VArr elems m => obj_set o k (VArr (elems ++ [VStr v]) m)
    | old => obj_set o k (VArr [old; VStr v] None)
    end
  else obj_set o k (VStr v).

(** The key and the value of one [key=value] segment, split at its first
    [=]. *)
Definition segment (seg : string) : string * string :=
  match split_on "=" seg with
  | k :: vs => (unescape k, unescape (join_with "=" vs))
  | [] => (EmptyString, EmptyString)
  end.

Definition maxKeys : nat := 1000.

(** [querystring.parse(str)]: at most [maxKeys] segments between [&] are
    read, and an empty segment is skipped. *)
Definition parse (str : string) : Obj :=
  if String.eqb str "" then []
  else
    foldl (λ o seg,
             if String.eqb seg "" then o
             else let '(k, v) := segment seg in addKeyValue o k v)
          [] (take maxKeys (split_on "&" str)).

End querystring.

(** [qs: QueryString = querystring] *)
Definition querystring : QueryString :=
  {| parse := querystring.parse; stringify := querystring.stringify |}.

(** ** Library functions *)

(** [Promise.all(ps)], the promises settling in the order [order] (a list of
    indices into [ps]). A fulfilment is stored at the index of its promise
    and the result resolves once no slot is left empty; the first rejection
    rejects the result. [None]: the result has not settled when [order] is
    used up. *)
Fixpoint promise_all_run {A} (ps : list (Outcome A)) (slots : list (option A))
    (order : list nat) : option (Outcome (list A)) :=
  match mapM id slots with
  | Some vs => Some (Resolved vs)
  | None =>
      match order with
      | [] => None
      | i :: order' =>
          match ps !! i with
          | Some (Rejected e) => Some (Rejected e)
          | Some (Resolved a) =>
              promise_all_run ps (<[i := Some a]> slots) order'
          | None => promise_all_run ps slots order'
          end
      end
  end.

Definition Promise_all {A} (ps : list (Outcome A)) (order : list nat)
    : option (Outcome (list A)) :=
  promise_all_run ps (replicate (length ps) None) order.

(** Each of [n] promises settles: every index occurs in the order. *)
Definition complete (n : nat) (order : list nat) : Prop :=
  ∀ i, (i < n)%nat → i ∈ order.

(** lodash's [chunk(array, size)]: [size] is truncated to an integer and
    raised to 0; there is no chunk when the array is empty or the size
    below 1; otherwise chunk [k] is the slice from [k * size] to
    [(k + 1) * size], for [k] below [ceil(length / size)]. *)
Definition chunk {A} (array : list A) (size : Z) : list (list A) :=
  let size := Z.to_nat (Z.max size 0) in
  let len := length array in
  if bool_decide (len = 0 ∨ size < 1)%nat then []
  else
    (λ k, take size (drop (k * size) array)) <$>
      seq 0 (Nat.div (len + size - 1) size).

(** lodash's [flatten(array)], one level deep: an element that is an array
    is replaced by its elements. *)
Definition flatten (array : list value) : list value :=
  array ≫= (λ v, match v with VArr elems _ => elems | _ => [v] end).

(** [Array.prototype.slice(start, end)] *)
Definition js_slice {A} (l : list A) (start end_ : Z) : list A :=
  let len := Z.of_nat (length l) in
  let k := if start <? 0 then Z.max (len + start) 0 else Z.min start len in
  let final := if end_ <? 0 then Z.max (len + end_) 0 else Z.min end_ len in
  take (Z.to_nat (final - k)) (drop (Z.to_nat k) l).

(** DataLoader's dispatch of one batch: every key of the batch is rejected
    when the batch function rejects or returns a list of another length
    than the keys; otherwise key [i] is rejected with [values[i]] when that
    is an [Error], and resolved with it when not. *)
Definition settle (v : value) : Outcome value :=
  if isError v then Rejected v else Resolved v.

Definition dispatch {K} (keys : list K) (batch : Outcome (list value))
    : list (Outcome value) :=
  match batch with
  | Rejected e => (λ _, Rejected e) <$> keys
  | Resolved values =>
      if bool_decide (length values = length keys) then settle <$> values
      else
        (λ _, Rejected (VError "TypeError: DataLoader must be constructed with a function which accepts Array<key> and returns Promise<Array<value>>"))
          <$> keys
  end.

(** ** Connections *)

Record Edge := { node : value; cursor : value }.

Record PageInfo := {
  startCursor : value;
  endCursor : value;
  hasPreviousPage : value;
  hasNextPage : value;
}.

(** graphql-relay's [Connection<T>]: what [connectionFromArray] returns. *)
Record RelayConnection := {
  relay_edges : list Edge;
  relay_pageInfo : PageInfo;
}.

(** [PaginationResult<T> = Connection<T> & { meta: {} }]: what the two
    pagination strategies return. *)
Record Connection := {
  edges : list Edge;
  pageInfo : PageInfo;
  meta : Obj;
}.

(** ** The class *)

Inductive HttpMethod := GET | POST | PUT | PATCH | DELETE.

Record HttpApiOptions := {
  apiBase : string;
  origin : string;
  externalOrigin : string;
}.

(** The fields of an instance; [request] is the abstract method a subclass
    supplies. *)
Record HttpApi := {
  _origin : string;
  _apiBase : string;
  _externalOrigin : string;
  qs : QueryString;
  numKeysPerChunk : Z;
  request : HttpMethod → string → value → Outcome value;
}.

(** The constructor and the field initialisers. *)
Definition new_HttpApi (options : HttpApiOptions)
    (request : HttpMethod → string → value → Outcome value) : HttpApi :=
  {| _origin := origin options;
     _externalOrigin := externalOrigin options;
     _apiBase := apiBase options;
     qs := querystring;
     numKeysPerChunk := 25;
     request := request |}.

(** [Object.keys(forwardConnectionArgs)] of graphql-relay. *)
Definition PAGINATION_ARG_KEYS : list string := ["after"; "first"].

Definition makePath (api : HttpApi) (path : string) (args : option Obj)
    : string :=
  match args with
  | None => path
  | Some args =>
      let parts := split_on "?" path in
      let pathBase := default "" (parts !! 0%nat) in
      let searchBase := parts !! 1%nat in
      let query :=
        match searchBase with
        | Some s => if truthy (VStr s) then parse (qs api) s else []
        | None => []
        end in
      let search := stringify (qs api) (obj_spread query args) in
      if negb (truthy (VStr search)) then pathBase
      else pathBase +:+ "?" +:+ search
  end.

(** ** The accumulator of the keyed loader

    [itemsByKey] is a plain object: besides the properties the batch
    function gives it, a lookup finds what its prototype has. It starts
    with [Object.prototype]; assigning to [__proto__] runs the setter of
    [Object.prototype] and makes the assigned array the prototype. [own] are
    the own properties, [proto] the array that has become the prototype,
    if any. *)

Record ItemsByKey := {
  own : gmap string (list value);
  proto : option (list value);
}.

Definition Object_prototype_names : list string :=
  ["constructor"; "__defineGetter__"; "__defineSetter__"; "hasOwnProperty";
   "__lookupGetter__"; "__lookupSetter__"; "isPrototypeOf";
   "propertyIsEnumerable"; "toString"; "valueOf"; "__proto__";
   "toLocaleString"].

(** The members of [Array.prototype] (ECMAScript 2023). *)
Definition Array_prototype_names : list string :=
  ["constructor"; "at"; "concat"; "copyWithin"; "fill"; "find"; "findIndex";
   "findLast"; "findLastIndex"; "lastIndexOf"; "pop"; "push"; "reverse";
   "shift"; "unshift"; "slice"; "sort"; "splice"; "includes"; "indexOf";
   "join"; "keys"; "entries"; "values"; "forEach"; "filter"; "flat";
   "flatMap"; "map"; "every"; "some"; "reduce"; "reduceRight";
   "toLocaleString"; "toString"; "toReversed"; "toSorted"; "toSpliced";
   "with"].

Definition not_a_function : value :=
  VError "TypeError: itemsByKey[key].push is not a function".

(** [itemsByKey[key] = []] *)
Definition init_key (st : ItemsByKey) (key : string) : ItemsByKey :=
  if String.eqb key "__proto__" then {| own := own st; proto := Some [] |}
  else {| own := <[key := []]> (own st); proto := proto st |}.

(** The index that [key] spells, when it is one of [P]. *)
Definition index_of_key (key : string) (P : list value) : option nat :=
  snd <$> list_find (λ i : nat, pretty i = key) (seq 0 (length P)).

(** [if (itemsByKey[key]) itemsByKey[key].push(item)]. What the lookup finds
    is, in this order: an own property, which is one of the arrays of
    [init_key]; then, through an array [P] that has become the prototype,
    [P] itself under [__proto__], its length, one of its elements, or a
    method of [Array.prototype]; then a member of [Object.prototype]. Only
    an array has a [push]; [0] is falsy; calling the [push] of anything
    else that is truthy throws. *)
Definition push_item (st : ItemsByKey) (key : string) (item : value)
    : Outcome ItemsByKey :=
  match own st !! key with
  | Some l => Resolved {| own := <[key := l ++ [item]]> (own st);
                          proto := proto st |}
  | None =>
      match proto st with
      | None =>
          if bool_decide (key ∈ Object_prototype_names)
          then Rejected not_a_function
          else Resolved st
      | Some P =>
          if String.eqb key "__proto__" then
            Resolved {| own := own st; proto := Some (P ++ [item]) |}
          else if String.eqb key "length" then
            if bool_decide (P = []) then Resolved st
            else Rejected not_a_function
          else
            match index_of_key key P with
            | Some i =>
                match P !! i with
                | Some (VArr elems m) =>
                    Resolved {| own := own st;
                                proto := Some (<[i := VArr (elems ++ [item]) m]> P) |}
                | Some e =>
                    if truthy e then Rejected not_a_function else Resolved st
                | None => Resolved st
                end
            | None =>
                if bool_decide (key ∈ Array_prototype_names ++ Object_prototype_names)
                then Rejected not_a_function
                else Resolved st
            end
      end
  end.

(** [itemsByKey[key]] for the result. *)
Definition read_key (st : ItemsByKey) (key : string) : value :=
  match own st !! key with
  | Some l => VArr l None
  | None =>
      match proto st with
      | Some P => if String.eqb key "__proto__" then VArr P None else VUndefined
      | None => VUndefined
      end
  end.

Fixpoint push_items (getKey : value → string) (st : ItemsByKey)
    (items : list value) : Outcome ItemsByKey :=
  match items with
  | [] => Resolved st
  | item :: items' =>
      st' ← push_item st (getKey item) item;
      push_items getKey st' items'
  end.

(** The items a key of the batch is to receive: those [getKey] maps to it,
    in arrival order. *)
Definition items_for (getKey : value → string) (items : list value)
    (key : string) : list value :=
  filter (λ item, getKey item = key) items.

(** No lookup of the batch leaves the own properties of [itemsByKey]:
    [__proto__] is not requested, and the key of every item is a requested
    one or names no member of [Object.prototype]. *)
Definition own_lookups (getKey : value → string) (keys : list string)
    (items : list value) : Prop :=
  ("__proto__" ∉ keys) ∧
  (∀ item, item ∈ items →
     getKey item ∈ keys ∨ getKey item ∉ Object_prototype_names).

(** The body of the batch function of [createLoader] after the [await]. *)
Definition returned_items (chunkedItems : list value) : list value :=
  filter (λ item, truthy item = true) (flatten chunkedItems).

Definition demultiplex (getKey : value → string) (keys : list string)
    (chunkedItems : list value) : Outcome (list value) :=
  let items := returned_items chunkedItems in
  let itemsByKey := foldl init_key {| own := ∅; proto := None |} keys in
  itemsByKey ← push_items getKey itemsByKey items;
  mret (read_key itemsByKey <$> keys).

(** ** The methods *)

Section Methods.

(** [utils/urlJoin], applied to the API base and a path. *)
Variable urlJoin : string → string → string.

(** graphql-relay's cursor codec: [offsetToCursor] and [cursorToOffset],
    the latter [None] where [parseInt] gives [NaN]. *)
Variable offsetToCursor : Z → string.
Variable cursorToOffset : string → option Z.

Definition _getUrl (api : HttpApi) (path : string) (origin : option string)
    : string :=
  default (_origin api) origin +:+ urlJoin (_apiBase api) path.

Definition getUrl (api : HttpApi) (path : string) (args : option Obj)
    : string :=
  _getUrl api (makePath api path args) None.

Definition getExternalUrl (api : HttpApi) (path : string) (args : option Obj)
    : string :=
  _getUrl api (makePath api path args) (Some (_externalOrigin api)).

(** The promises the batch function of [_loader] hands to [Promise.all]:
    [this.request('GET', this._getUrl(path)).catch(e => e)] for each path. *)
Definition loader_requests (api : HttpApi) (paths : list string)
    : list (Outcome value) :=
  (λ path, catch_id (request api GET (_getUrl api path None) VUndefined))
    <$> paths.

(** One batch window of [_loader]: the load promises of [paths], in order,
    when the requests settle in the order [order]. *)
Definition loader_window (api : HttpApi) (paths : list string)
    (order : list nat) : option (list (Outcome value)) :=
  dispatch paths <$> Promise_all (loader_requests api paths) order.

(** [this._loader.load(path)]: the load promise of one path, which by
    [loader_window_load] below is what every window gives it. *)
Definition load (api : HttpApi) (path : string) : Outcome value :=
  v ← catch_id (request api GET (_getUrl api path None) VUndefined);
  settle v.

Definition get (api : HttpApi) (path : string) (args : option Obj)
    : Outcome value :=
  load api (makePath api path args).

(** [items.map((item, i) => ({ node: item, cursor: cursors[i] }))] *)
Definition paged_edges (elems : list value) (cursors : value)
    : Outcome (list Edge) :=
  mapM (λ '(i, item),
          c ← get_index cursors (Z.of_nat i);
          mret {| node := item; cursor := c |})
       (imap pair elems).

(** [items[i] ? cursors[i] : null] *)
Definition boundary_cursor (elems : list value) (cursors : value) (i : Z)
    : Outcome value :=
  if truthy (elem_at elems i) then get_index cursors i else mret VNull.

(** The path [getPaginatedConnection] asks for:
    [this.makePath(path, { ...args, cursor: after, limit: first, pageSize: first })]
    with [{ after, first, ...args }] the arguments of the call. *)
Definition paged_path (api : HttpApi) (path : string) (args : Obj) : string :=
  let after := obj_get args "after" in
  let first := obj_get args "first" in
  let args := omit args ["after"; "first"] in
  makePath api path
    (Some (obj_spread args
             [("cursor", after); ("limit", first); ("pageSize", first)])).

(** The path [getUnpaginatedConnection] asks for. *)
Definition unpaged_path (api : HttpApi) (path : string) (args : Obj) : string :=
  makePath api path (Some (omit args PAGINATION_ARG_KEYS)).

(** What the backend answers to the request of a paged and of an unpaged
    connection. *)
Definition paged_fetch (api : HttpApi) (path : string) (args : Obj)
    : Outcome value :=
  request api GET (_getUrl api (paged_path api path args) None) VUndefined.

Definition unpaged_fetch (api : HttpApi) (path : string) (args : Obj)
    : Outcome value :=
  request api GET (_getUrl api (unpaged_path api path args) None) VUndefined.

Definition getPaginatedConnection (api : HttpApi) (path : string)
    (args : Obj) : Outcome (option Connection) :=
  let after := obj_get args "after" in
  items ← get api (paged_path api path args) None;
  if negb (truthy items) then mret None
  else
    _ ← invariant (truthy (get_meta items))
      "Unexpected format. `GET` should return an array of items with a `meta` property containing an array of cursors and `hasNextPage`";
    let cursors := get_named (get_meta items) "cursors" in
    let hasNextPage := get_named (get_meta items) "hasNextPage" in
    let meta := omit (own_enumerable (get_meta items)) ["cursors"; "hasNextPage"] in
    match items with
    | VArr elems _ =>
        let lastIndex := Z.of_nat (length elems) - 1 in
        let hasPreviousPage := VBool (truthy after) in
        edges ← paged_edges elems cursors;
        startCursor ← boundary_cursor elems cursors 0;
        endCursor ← boundary_cursor elems cursors lastIndex;
        mret (Some {| edges := edges;
                      pageInfo := {| startCursor := startCursor;
                                     endCursor := endCursor;
                                     hasPreviousPage := hasPreviousPage;
                                     hasNextPage := hasNextPage |};
                      meta := meta |})
    | _ => Rejected (VError "TypeError: items.map is not a function")
    end.

Definition getOffsetWithDefault (cursor : value) (defaultOffset : Z) : Z :=
  match cursor with
  | VStr s => default defaultOffset (cursorToOffset s)
  | _ => defaultOffset
  end.

(** [if (typeof n === 'number') { invariant(n >= 0, ..); .. }]: the bound a
    numeric [first] or [last] gives, [None] when the argument is not a
    number. *)
Definition count_arg (name : string) (n : value) : Outcome (option Z) :=
  let message := "Argument '" +:+ name +:+ "' must be a non-negative integer" in
  match n with
  | VNum n => _ ← invariant (0 <=? n) message; mret (Some n)
  | VNaN => _ ← invariant false message; mret None
  | _ => mret None
  end.

(** graphql-relay's [connectionFromArraySlice(arraySlice, args, meta)] *)
Definition connectionFromArraySlice (arraySlice : list value) (args : Obj)
    (sliceStart arrayLength : Z) : Outcome RelayConnection :=
  let after := obj_get args "after" in
  let before := obj_get args "before" in
  let sliceEnd := sliceStart + Z.of_nat (length arraySlice) in
  let beforeOffset := getOffsetWithDefault before arrayLength in
  let afterOffset := getOffsetWithDefault after (-1) in
  let startOffset := Z.max (Z.max (sliceStart - 1) afterOffset) (-1) + 1 in
  let endOffset := Z.min (Z.min sliceEnd beforeOffset) arrayLength in
  first ← count_arg "first" (obj_get args "first");
  let endOffset :=
    match first with
    | Some n => Z.min endOffset (startOffset + n)
    | None => endOffset
    end in
  last_ ← count_arg "last" (obj_get args "last");
  let startOffset :=
    match last_ with
    | Some n => Z.max startOffset (endOffset - n)
    | None => startOffset
    end in
  let slice :=
    js_slice arraySlice (Z.max (startOffset - sliceStart) 0)
      (Z.of_nat (length arraySlice) - (sliceEnd - endOffset)) in
  let edges :=
    imap (λ index value,
            {| cursor := VStr (offsetToCursor (startOffset + Z.of_nat index));
               node := value |}) slice in
  let lowerBound := if nullish after then 0 else afterOffset + 1 in
  let upperBound := if nullish before then arrayLength else beforeOffset in
  mret {| relay_edges := edges;
          relay_pageInfo :=
            {| startCursor := from_option cursor VNull (head edges);
               endCursor := from_option cursor VNull (last edges);
               hasPreviousPage :=
                 VBool (match last_ with
                        | Some _ => lowerBound <? startOffset
                        | None => false
                        end);
               hasNextPage :=
                 VBool (match first with
                        | Some _ => endOffset <? upperBound
                        | None => false
                        end) |} |}.

(** graphql-relay's [connectionFromArray(data, args)] *)
Definition connectionFromArray (data : list value) (args : Obj)
    : Outcome RelayConnection :=
  connectionFromArraySlice data args 0 (Z.of_nat (length data)).

(** [{ ...connection, meta: {} }] *)
Definition with_empty_meta (connection : RelayConnection) : Connection :=
  {| edges := relay_edges connection;
     pageInfo := relay_pageInfo connection;
     meta := [] |}.

Definition getUnpaginatedConnection (api : HttpApi) (path : string)
    (args : Obj) : Outcome (option Connection) :=
  let paginationArgs := pick args PAGINATION_ARG_KEYS in
  items ← get api (unpaged_path api path args) None;
  _ ← invariant (isArray items)
    ("Expected `GET` to return an array of items, got: " +:+ typeof items
       +:+ " instead");
  match items with
  | VArr elems _ =>
      connection ← connectionFromArray elems paginationArgs;
      mret (Some (with_empty_meta connection))
  | _ => Rejected (VError "TypeError: arraySlice.slice is not a function")
  end.

(** The batch function of [createLoader(getPath, getKey)] on [keys], the
    chunk requests settling in the order [order]. *)
Definition createLoader_batch (api : HttpApi) (getPath : list string → string)
    (getKey : value → string) (keys : list string) (order : list nat)
    : option (Outcome (list value)) :=
  let requests :=
    (λ chunkKeys, request api GET (getPath chunkKeys) VUndefined)
      <$> chunk keys (numKeysPerChunk api) in
  (λ settled, chunkedItems ← settled; demultiplex getKey keys chunkedItems)
    <$> Promise_all requests order.

End Methods.

(** [s.includes(c)] for a character [c]. *)
Fixpoint has_char (c : ascii) (s : string) : bool :=
  match s with
  | EmptyString => false
  | String c' s' => Ascii.eqb c' c || has_char c s'
  end.

(** ** Codecs and key order *)

(** An object has each key once. *)
Definition distinct_keys (o : Obj) : Prop := NoDup o.*1.

(** [stringify] does not depend on the order in which the properties of an
    object are enumerated. *)
Definition order_insensitive (codec : QueryString) : Prop :=
  ∀ o1 o2, distinct_keys o1 → o1 ≡ₚ o2 → stringify codec o1 = stringify codec o2.

(** [parse] gives objects. *)
Definition parses_objects (codec : QueryString) : Prop :=
  ∀ str, distinct_keys (parse codec str).

(** A codec that writes, for each key of a fixed list and in the order of
    that list, the field Node's codec writes for it: it does not depend on
    the order of the keys of the object. *)
Definition listed_stringify (names : list string) (o : Obj) : string :=
  join_with "&"
    (names ≫= (λ k, if obj_has o k then querystring.fields (k, obj_get o k)
                    else [])).

Definition listed_codec (names : list string) : QueryString :=
  {| parse := querystring.parse; stringify := listed_stringify names |}.

(** An instance whose codec is [listed_codec names]. *)
Definition listed_api (names : list string) : HttpApi :=
  {| _origin := ""; _apiBase := ""; _externalOrigin := "";
     qs := listed_codec names; numKeysPerChunk := 25;
     request := λ _ _ _, Resolved VNull |}.

(** ** Instances for the examples *)

(** graphql-relay's cursors: [offsetToCursor(n)] is the base64 text of
    [arrayconnection:n]; [cursorToOffset] reads the integer back. *)
Module relay.

Definition alphabet : list ascii :=
  list_ascii_of_string
    "ABCDEFGHIJKLMNOPQRSTUVWXYZabcdefghijklmnopqrstuvwxyz0123456789+/".

Definition digit (n : N) : ascii :=
  default "A"%char (alphabet !! N.to_nat n).

Fixpoint base64 (bytes : list N) : list ascii :=
  match bytes with
  | [] => []
  | [a] =>
      [digit (a / 4); digit (a mod 4 * 16); "="; "="]%char%N
  | [a; b] =>
      [digit (a / 4); digit (a mod 4 * 16 + b / 16); digit (b mod 16 * 4);
       "="%char]%N
  | a :: b :: c :: rest =>
      [digit (a / 4); digit (a mod 4 * 16 + b / 16);
       digit (b mod 16 * 4 + c / 64); digit (c mod 64)]%N ++ base64 rest
  end.

Definition sextet (c : ascii) : option N :=
  (λ p, N.of_nat p.1) <$> list_find (λ d, d = c) alphabet.

Fixpoint unbase64 (chars : list ascii) : list N :=
  match chars with
  | a :: b :: c :: d :: rest =>
      match sextet a, sextet b, sextet c, sextet d with
      | Some x, Some y, Some z, Some w =>
          [x * 4 + y / 16; y mod 16 * 16 + z / 4; z mod 4 * 64 + w]%N
            ++ unbase64 rest
      | Some x, Some y, Some z, None => [x * 4 + y / 16; y mod 16 * 16 + z / 4]%N
      | Some x, Some y, None, _ => [x * 4 + y / 16]%N
      | _, _, _, _ => []
      end
  | _ => []
  end.

Definition PREFIX : string := "arrayconnection:".

Definition offsetToCursor (offset : Z) : string :=
  string_of_list_ascii
    (base64 (N_of_ascii <$> list_ascii_of_string (PREFIX +:+ pretty offset))).

(** [parseInt(s, 10)] on an optional sign and the digits that follow;
    [None] for [NaN]. *)
Fixpoint digits (acc : option Z) (s : list ascii) : option Z :=
  match s with
  | c :: s' =>
      let n := Z.of_N (N_of_ascii c) in
      if (48 <=? n) && (n <=? 57)
      then digits (Some (10 * default 0 acc + (n - 48))) s'
      else acc
  | [] => acc
  end.

Definition parseInt (s : list ascii) : option Z :=
  match s with
  | "-"%char :: s' => Z.opp <$> digits None s'
  | "+"%char :: s' => digits None s'
  | _ => digits None s
  end.

Definition cursorToOffset (cursor : string) : option Z :=
  parseInt
    (drop (String.length PREFIX)
       (ascii_of_N <$> unbase64 (list_ascii_of_string cursor))).

End relay.

(** Joining by concatenation stands for [urlJoin] in the examples. *)
Definition concat_urlJoin (base path : string) : string := base +:+ path.

(** A backend that answers a [GET] of a listed URL with the listed outcome,
    and anything else with [null]. *)
Definition fixed_backend (responses : list (string * Outcome value))
    (method : HttpMethod) (url : string) (data : value) : Outcome value :=
  match method with
  | GET =>
      from_option snd (Resolved VNull)
        (head (filter (λ r, r.1 = url) responses))
  | _ => Resolved VNull
  end.

Definition example_api (responses : list (string * Outcome value)) : HttpApi :=
  new_HttpApi {| apiBase := "/api"; origin := "http://backend";
                 externalOrigin := "https://example.org" |}
              (fixed_backend responses).

(** [item => typeof item.id === 'string' ? item.id : ''] and
    [keys => '/things?id=' + keys.join(',')], a key function and a path
    function for [createLoader]. *)
Definition id_key (item : value) : string :=
  match get_named item "id" with
  | VStr id => id
  | _ => ""
  end.

Definition things_path (keys : list string) : string :=
  "/things?id=" +:+ join_with "," keys.

Definition thing (id : string) : value := VObj [("id", VStr id)].

(** * Properties *)

(** ** [Promise.all] *)

Section PromiseAll.
Context {A : Type}.
Implicit Types (vs : list A) (slots : list (option A)) (order : list nat).

Lemma promise_all_run_resolved vs order slots :
  length slots = length vs →
  (∀ i a, slots !! i = Some (Some a) → vs !! i = Some a) →
  (∀ i, slots !! i = Some None → i ∈ order) →
  promise_all_run (Resolved <$> vs) slots order = Some (Resolved vs).
Proof.
  revert slots. induction order as [|i order IH]; intros slots Hlen Hfilled Hleft.
  - simpl. destruct (mapM id slots) as [ws|] eqn:Hall.
    + do 2 f_equal. apply mapM_Some in Hall.
      apply list_eq_Forall2, Forall2_same_length_lookup.
      split; [by rewrite <- (Forall2_length _ _ _ Hall)|].
      intros j w v Hw Hv.
      destruct (Forall2_lookup_r _ _ _ _ _ Hall Hw) as (s & Hs & Hid).
      simpl in Hid. subst s. apply Hfilled in Hs. congruence.
    + exfalso. assert (is_Some (mapM id slots)) as [? ?]; [|congruence].
      apply mapM_is_Some, Forall_lookup. intros j [a|] Hj; [by eexists|].
      apply Hleft in Hj. by apply elem_of_nil in Hj.
  - simpl. destruct (mapM id slots) as [ws|] eqn:Hall.
    + do 2 f_equal. apply mapM_Some in Hall.
      apply list_eq_Forall2, Forall2_same_length_lookup.
      split; [by rewrite <- (Forall2_length _ _ _ Hall)|].
      intros j w v Hw Hv.
      destruct (Forall2_lookup_r _ _ _ _ _ Hall Hw) as (s & Hs & Hid).
      simpl in Hid. subst s. apply Hfilled in Hs. congruence.
    + rewrite list_lookup_fmap. destruct (vs !! i) as [a|] eqn:Hi; simpl.
      * apply IH.
        -- by rewrite length_insert.
        -- intros j b Hj. destruct (decide (i = j)) as [->|Hne].
           ++ rewrite list_lookup_insert_eq in Hj; [congruence|].
              rewrite Hlen. by eapply lookup_lt_Some.
           ++ rewrite list_lookup_insert_ne in Hj by done. by apply Hfilled.
        -- intros j Hj. destruct (decide (i = j)) as [->|Hne].
           ++ rewrite list_lookup_insert_eq in Hj; [congruence|].
              rewrite Hlen. by eapply lookup_lt_Some.
           ++ rewrite list_lookup_insert_ne in Hj by done.
              pose proof (Hleft j Hj) as Hin.
              apply elem_of_cons in Hin as [?|?]; [congruence|done].
      * apply IH; [done..|]. intros j Hj.
        pose proof (Hleft j Hj) as Hin.
        apply elem_of_cons in Hin as [Heq|?]; [subst j|done].
        apply lookup_lt_Some in Hj. apply lookup_ge_None in Hi. lia.
Qed.

(** When every promise resolves and each of them settles, the result holds
    the values at the positions of their promises, in whatever order they
    settled. *)
Lemma Promise_all_resolved vs order :
  complete (length vs) order →
  Promise_all (Resolved <$> vs) order = Some (Resolved vs).
Proof.
  intros Hc. unfold Promise_all. apply promise_all_run_resolved.
  - by rewrite length_replicate, length_fmap.
  - intros i a Hi. apply lookup_replicate in Hi as [? _]. congruence.
  - intros i Hi. apply lookup_replicate in Hi as [_ Hi].
    apply Hc. by rewrite length_fmap in Hi.
Qed.

End PromiseAll.

(** ** [chunk] *)

Section Chunk.
Context {A : Type}.
Implicit Types (l : list A) (n m : nat).

Lemma slices_concat n m l :
  (length l ≤ m * n)%nat →
  concat ((λ k, take n (drop (k * n) l)) <$> seq 0 m) = l.
Proof.
  revert l. induction m as [|m IH]; intros l Hlen.
  - destruct l; [done|simpl in Hlen; lia].
  - rewrite <- cons_seq, <- fmap_S_seq, fmap_cons, <- list_fmap_compose.
    simpl. transitivity (take n l ++ drop n l); [|apply take_drop].
    f_equal. etransitivity; [|apply (IH (drop n l)); rewrite length_drop; lia].
    f_equal. apply list_fmap_ext. intros _ k _. simpl.
    by rewrite drop_drop.
Qed.

Lemma ceil_div_bounds (len n : nat) :
  (0 < n)%nat →
  (len ≤ (len + n - 1) `div` n * n)%nat ∧
  ((len + n - 1) `div` n * n < len + n)%nat.
Proof.
  intros Hn.
  pose proof (Nat.div_mod_eq (len + n - 1) n) as Hdm.
  pose proof (Nat.mod_upper_bound (len + n - 1) n) as Hub.
  split; nia.
Qed.

Lemma chunk_slices l (size : Z) :
  0 < size →
  chunk l size =
    (λ k, take (Z.to_nat size) (drop (k * Z.to_nat size) l)) <$>
      seq 0 ((length l + Z.to_nat size - 1) `div` Z.to_nat size).
Proof.
  intros Hsize. unfold chunk. rewrite Z.max_l by lia.
  case_bool_decide as Hempty; [|done].
  destruct Hempty as [Hnil|?]; [|lia]. rewrite Hnil. simpl.
  rewrite Nat.div_small by lia. done.
Qed.

(** The chunks, concatenated, are the array. *)
Lemma chunk_concat l (size : Z) : 0 < size → concat (chunk l size) = l.
Proof.
  intros Hsize. rewrite chunk_slices by done.
  apply slices_concat, ceil_div_bounds. lia.
Qed.

(** Chunk [i] is the slice that starts at [i * size]; it is never empty. *)
Lemma chunk_lookup l (size : Z) i c :
  0 < size →
  chunk l size !! i = Some c →
  c = take (Z.to_nat size) (drop (i * Z.to_nat size) l) ∧
  (i * Z.to_nat size < length l)%nat.
Proof.
  intros Hsize. rewrite chunk_slices by done.
  rewrite list_lookup_fmap. intros Hc.
  destruct (seq _ _ !! i) as [k|] eqn:Hk; [|done].
  apply lookup_seq in Hk as [-> Hlt]. simpl in Hc.
  split; [congruence|].
  pose proof (ceil_div_bounds (length l) (Z.to_nat size)) as [_ Hup]; [lia|].
  simpl in Hlt. nia.
Qed.

End Chunk.

(** ** The accumulator of the keyed loader *)

Section Demultiplex.
Variable getKey : value → string.
Implicit Types (st : ItemsByKey) (keys : list string) (items : list value).

Lemma init_key_fold st keys :
  "__proto__" ∉ keys →
  proto (foldl init_key st keys) = proto st ∧
  ∀ k, own (foldl init_key st keys) !! k =
       if bool_decide (k ∈ keys) then Some [] else own st !! k.
Proof.
  revert st. induction keys as [|key keys IH]; intros st Hproto.
  - split; [done|]. intros k. by rewrite bool_decide_eq_false_2 by set_solver.
  - apply not_elem_of_cons in Hproto as [Hkey Hkeys].
    destruct (IH (init_key st key) Hkeys) as [Hp Ho]. cbn [foldl].
    assert (init_key st key =
            {| own := <[key := []]> (own st); proto := proto st |}) as Hinit.
    { unfold init_key. destruct (String.eqb_spec key "__proto__"); congruence. }
    rewrite Hinit. rewrite Hinit in Hp. rewrite Hinit in Ho.
    split; [done|]. intros k. rewrite Ho. simpl.
    destruct (decide (k = key)) as [->|Hne].
    + rewrite lookup_insert_eq.
      rewrite (bool_decide_eq_true_2 (key ∈ key :: keys)) by (apply elem_of_cons; left; reflexivity).
      by case_bool_decide.
    + rewrite lookup_insert_ne by done.
      rewrite (bool_decide_ext (k ∈ key :: keys) (k ∈ keys)); [done|].
      rewrite elem_of_cons. split; [by intros [?|?]|by right].
Qed.

Lemma items_for_cons_eq item items :
  items_for getKey (item :: items) (getKey item)
  = item :: items_for getKey items (getKey item).
Proof. unfold items_for. by rewrite filter_cons_True. Qed.

Lemma items_for_cons_ne item items k :
  getKey item ≠ k →
  items_for getKey (item :: items) k = items_for getKey items k.
Proof. intros. unfold items_for. by rewrite filter_cons_False. Qed.

Lemma push_items_own st items :
  proto st = None →
  (∀ item, item ∈ items →
     is_Some (own st !! getKey item) ∨
     getKey item ∉ Object_prototype_names) →
  ∃ st', push_items getKey st items = Resolved st' ∧
         proto st' = None ∧
         ∀ k, own st' !! k
              = (λ l, l ++ items_for getKey items k) <$> own st !! k.
Proof.
  revert st. induction items as [|item items IH]; intros st Hproto Hsafe.
  - exists st. split_and!; [done..|]. intros k.
    destruct (own st !! k); simpl; [|done]. by rewrite app_nil_r.
  - simpl. unfold push_item.
    destruct (own st !! getKey item) as [l|] eqn:Hl.
    + set (st1 := {| own := <[getKey item := l ++ [item]]> (own st);
                     proto := proto st |}).
      destruct (IH st1) as (st' & Hrun & Hp & Ho); [done| |].
      { intros it Hit. destruct (Hsafe it) as [Hsome|?]; [set_solver| |by right].
        left. simpl. destruct (decide (getKey item = getKey it)) as [<-|?].
        - rewrite lookup_insert_eq. by eexists.
        - by rewrite lookup_insert_ne. }
      exists st'. simpl. split_and!; [done..|]. intros k. rewrite Ho. simpl.
      destruct (decide (getKey item = k)) as [<-|Hne].
      * rewrite lookup_insert_eq, Hl. simpl.
        by rewrite items_for_cons_eq, <- app_assoc.
      * rewrite lookup_insert_ne by done. by rewrite items_for_cons_ne.
    + rewrite Hproto. destruct (Hsafe item) as [[? Hsome]|Hnot]; [set_solver|congruence|].
      rewrite bool_decide_eq_false_2 by done.
      destruct (IH st) as (st' & Hrun & Hp & Ho); [done| |].
      { intros it Hit. apply Hsafe. set_solver. }
      exists st'. simpl. split_and!; [done..|]. intros k. rewrite Ho.
      destruct (decide (getKey item = k)) as [<-|Hne].
      * by rewrite Hl.
      * by rewrite items_for_cons_ne.
Qed.

(** When no lookup leaves the own properties, the batch function resolves,
    and with the items of each key, in key order. *)
Lemma demultiplex_own keys chunkedItems :
  own_lookups getKey keys (returned_items chunkedItems) →
  demultiplex getKey keys chunkedItems =
    Resolved ((λ key, VArr (items_for getKey (returned_items chunkedItems) key) None)
                <$> keys).
Proof.
  intros [Hproto Hsafe]. unfold demultiplex.
  destruct (init_key_fold {| own := ∅; proto := None |} keys Hproto) as [Hp Ho].
  destruct (push_items_own _ (returned_items chunkedItems) Hp)
    as (st' & -> & Hp' & Ho').
  { intros item Hitem. destruct (Hsafe item Hitem) as [Hin|?]; [|by right].
    left. rewrite Ho. by rewrite bool_decide_eq_true_2. }
  simpl. unfold mret, Outcome_ret. f_equal.
  apply list_fmap_ext. intros _ key Hkey%list_elem_of_lookup_2.
  unfold read_key. rewrite Ho', Ho. by rewrite bool_decide_eq_true_2.
Qed.

End Demultiplex.

(** ** The single-key loader *)

Section Loader.
Variable urlJoin : string → string → string.
Implicit Types (api : HttpApi) (paths : list string) (order : list nat).

Lemma load_settle api path :
  load urlJoin api path
  = settle (settled_value (request api GET (_getUrl urlJoin api path None) VUndefined)).
Proof. done. Qed.

(** Whatever else is in the window and in whatever order the requests
    settle, the load promise of a path is [load]. *)
Lemma loader_window_load api paths order :
  complete (length paths) order →
  loader_window urlJoin api paths order = Some (load urlJoin api <$> paths).
Proof.
  intros Hc. unfold loader_window.
  assert (loader_requests urlJoin api paths
          = Resolved <$>
              ((λ path, settled_value
                          (request api GET (_getUrl urlJoin api path None) VUndefined))
                 <$> paths)) as ->.
  { unfold loader_requests. by rewrite <- list_fmap_compose. }
  rewrite Promise_all_resolved by by rewrite length_fmap.
  simpl. rewrite bool_decide_eq_true_2 by by rewrite length_fmap.
  f_equal. by rewrite <- list_fmap_compose.
Qed.

Lemma get_resolved api path v :
  request api GET (_getUrl urlJoin api path None) VUndefined = Resolved v →
  isError v = false →
  get urlJoin api path None = Resolved v.
Proof.
  intros Hv Hne. unfold get, makePath, load. rewrite Hv. simpl.
  unfold settle. by rewrite Hne.
Qed.

End Loader.

Example offsetToCursor_ex :
  relay.offsetToCursor 0 = "YXJyYXljb25uZWN0aW9uOjA=" ∧
  relay.offsetToCursor 12 = "YXJyYXljb25uZWN0aW9uOjEy" ∧
  relay.cursorToOffset "YXJyYXljb25uZWN0aW9uOjEy" = Some 12 ∧
  relay.cursorToOffset "YXJyYXljb25uZWN0aW9uOjA=" = Some 0 ∧
  relay.cursorToOffset "bogus" = None.
Proof. vm_compute. done. Qed.

Section LoaderIsolation.
Variable urlJoin : string → string → string.

(** C8, as amended. In a batch window of the single-key loader in which
    every request settles, the load promise of each path is decided by the
    request of that path alone: it rejects with the failure of its request
    when that failure is an [Error], and it resolves with the value of its
    request when that is not an [Error]; a failure that is not an [Error]
    is delivered as the resolved value. No request of another path of the
    window has a part in it. *)
Theorem loader_failure_isolation (api : HttpApi) (paths : list string)
    (order : list nat) :
  complete (length paths) order →
  ∃ loads,
    loader_window urlJoin api paths order = Some loads ∧
    length loads = length paths ∧
    ∀ i path, paths !! i = Some path →
      let fetch := request api GET (_getUrl urlJoin api path None) VUndefined in
      loads !! i = Some (settle (settled_value fetch)) ∧
      (∀ e, fetch = Rejected e → isError e = true →
            loads !! i = Some (Rejected e)) ∧
      (∀ e, fetch = Rejected e → isError e = false →
            loads !! i = Some (Resolved e)) ∧
      (∀ v, fetch = Resolved v → isError v = false →
            loads !! i = Some (Resolved v)).
Proof.
  intros Hc. exists (load urlJoin api <$> paths).
  split_and!; [by apply loader_window_load|by rewrite length_fmap|].
  intros i path Hi fetch.
  assert ((load urlJoin api <$> paths) !! i
          = Some (settle (settled_value fetch))) as Hload.
  { by rewrite list_lookup_fmap, Hi. }
  rewrite Hload. split_and!; [done|..]; intros x Hx Herr;
    rewrite Hx; simpl; unfold settle; by rewrite Herr.
Qed.

End LoaderIsolation.

(** Two paths in one window, the first request failing with an [Error]:
    the first load rejects with it, the second resolves. *)
Lemma loader_failure_isolation_witness :
  complete 2 [1; 0]%nat ∧
  loader_window concat_urlJoin
    (example_api [("http://backend/api/a", Rejected (VError "503"));
                  ("http://backend/api/b", Resolved (VStr "b"))])
    ["/a"; "/b"] [1; 0]%nat
  = Some [Rejected (VError "503"); Resolved (VStr "b")].
Proof.
  assert (complete 2 [1; 0]%nat) as Hc.
  { intros i Hi. destruct i as [|[|i]]; [compute_done..|lia]. }
  split; [done|].
  destruct (loader_failure_isolation concat_urlJoin
              (example_api [("http://backend/api/a", Rejected (VError "503"));
                            ("http://backend/api/b", Resolved (VStr "b"))])
              ["/a"; "/b"] [1; 0]%nat Hc) as (loads & -> & Hlen & Hloads).
  destruct loads as [|l0 [|l1 [|]]]; try discriminate Hlen.
  destruct (Hloads 0%nat "/a" eq_refl) as [H0 _].
  destruct (Hloads 1%nat "/b" eq_refl) as [H1 _].
  simpl in H0, H1. injection H0 as ->. injection H1 as ->.
  reflexivity.
Defined.

(** C8, the claim as stated fails: a request that fails with a reason that
    is not an [Error] (here a string) has its load promise resolved with
    that reason, not rejected. *)
Lemma loader_failure_not_error_resolves :
  let api := example_api [("http://backend/api/a", Rejected (VStr "boom"));
                          ("http://backend/api/b", Resolved (VStr "b"))] in
  request api GET (_getUrl concat_urlJoin api "/a" None) VUndefined
    = Rejected (VStr "boom") ∧
  loader_window concat_urlJoin api ["/a"; "/b"] [0; 1]%nat
    = Some [Resolved (VStr "boom"); Resolved (VStr "b")].
Proof. vm_compute. done. Qed.

(** ** The paged strategy *)

Section Paged.
Variable urlJoin : string → string → string.
Implicit Types (api : HttpApi) (path : string) (args : Obj).
Implicit Types (elems : list value) (m cursors : value).

Lemma get_index_indexable cursors i :
  nullish cursors = false →
  get_index cursors i = Resolved (index_value cursors i).
Proof. intros Hc. unfold get_index. by rewrite Hc. Qed.

Lemma paged_edges_from elems cursors (k : nat) :
  nullish cursors = false →
  mapM (λ '(i, item),
          c ← get_index cursors (Z.of_nat i);
          mret {| node := item; cursor := c |})
       (imap (λ i item, ((k + i)%nat, item)) elems)
  = Resolved (imap (λ i item,
                      {| node := item;
                         cursor := index_value cursors (Z.of_nat (k + i)) |})
                   elems).
Proof.
  intros Hc. revert k. induction elems as [|item elems IH]; intros k; [done|].
  rewrite !imap_cons. cbn [mapM].
  rewrite (imap_ext _ (λ i item, ((S k + i)%nat, item))); last first.
  { intros i x _. simpl. f_equal. lia. }
  rewrite IH, get_index_indexable by done. simpl.
  unfold mret, Outcome_ret. do 2 f_equal.
  apply imap_ext. intros i x _. simpl. do 3 f_equal. lia.
Qed.

Lemma paged_edges_indexable elems cursors :
  nullish cursors = false →
  paged_edges elems cursors
  = Resolved (imap (λ i item,
                      {| node := item;
                         cursor := index_value cursors (Z.of_nat i) |})
                   elems).
Proof. intros Hc. by apply (paged_edges_from elems cursors 0). Qed.

Lemma boundary_cursor_indexable elems cursors i :
  elems = [] ∨ nullish cursors = false →
  boundary_cursor elems cursors i
  = Resolved (if truthy (elem_at elems i) then index_value cursors i
              else VNull).
Proof.
  unfold boundary_cursor, get_index. intros [-> | ->].
  - unfold elem_at. destruct (i <? 0); [done|]. by rewrite lookup_nil.
  - by destruct (truthy (elem_at elems i)).
Qed.

(** The translation of a page: an array with a truthy [meta] whose
    [cursors] can be indexed (or with no item at all). *)
Lemma getPaginatedConnection_page api path args elems m :
  paged_fetch urlJoin api path args = Resolved (VArr elems (Some m)) →
  truthy m = true →
  elems = [] ∨ nullish (get_named m "cursors") = false →
  let cursors := get_named m "cursors" in
  let lastIndex := Z.of_nat (length elems) - 1 in
  getPaginatedConnection urlJoin api path args
  = Resolved (Some
      {| edges := imap (λ i item,
                          {| node := item;
                             cursor := index_value cursors (Z.of_nat i) |})
                       elems;
         pageInfo :=
           {| startCursor := if truthy (elem_at elems 0)
                             then index_value cursors 0 else VNull;
              endCursor := if truthy (elem_at elems lastIndex)
                           then index_value cursors lastIndex else VNull;
              hasPreviousPage := VBool (truthy (obj_get args "after"));
              hasNextPage := get_named m "hasNextPage" |};
         meta := omit (own_enumerable m) ["cursors"; "hasNextPage"] |}).
Proof.
  intros Hfetch Hm Hcursors cursors lastIndex. unfold getPaginatedConnection.
  rewrite (get_resolved _ _ _ _ Hfetch) by done. simpl. rewrite Hm. simpl.
  rewrite !boundary_cursor_indexable by done.
  destruct Hcursors as [-> | Hc]; [done|].
  by rewrite paged_edges_indexable.
Qed.

(** C3. When the backend answers a paged connection request with [null],
    [getPaginatedConnection] resolves with [null]; when it answers with an
    empty page (an empty array with its [meta]), [getPaginatedConnection]
    resolves with a connection that has no edge. The two results differ. *)
Theorem getPaginatedConnection_null_or_empty api path args :
  (paged_fetch urlJoin api path args = Resolved VNull →
   getPaginatedConnection urlJoin api path args = Resolved None) ∧
  (∀ m, paged_fetch urlJoin api path args = Resolved (VArr [] (Some m)) →
        truthy m = true →
        ∃ connection,
          getPaginatedConnection urlJoin api path args
            = Resolved (Some connection) ∧
          edges connection = [] ∧
          getPaginatedConnection urlJoin api path args ≠ Resolved None).
Proof.
  split.
  - intros Hfetch. unfold getPaginatedConnection.
    by rewrite (get_resolved _ _ _ _ Hfetch).
  - intros m Hfetch Hm. eexists. split_and!.
    + apply (getPaginatedConnection_page _ _ _ _ _ Hfetch Hm). by left.
    + done.
    + rewrite (getPaginatedConnection_page _ _ _ _ _ Hfetch Hm) by by left.
      discriminate.
Qed.

(** A result that is truthy and has no truthy [meta],
    an array without [meta] for one, makes [getPaginatedConnection] reject
    with the error of its invariant. *)
Lemma getPaginatedConnection_no_meta api path args items :
  paged_fetch urlJoin api path args = Resolved items →
  truthy items = true →
  isError items = false →
  truthy (get_meta items) = false →
  getPaginatedConnection urlJoin api path args
  = Rejected (VError "Unexpected format. `GET` should return an array of items with a `meta` property containing an array of cursors and `hasNextPage`").
Proof.
  intros Hfetch Ht He Hmeta. unfold getPaginatedConnection.
  rewrite (get_resolved _ _ _ _ Hfetch) by done. simpl.
  by rewrite Ht, Hmeta.
Qed.

(** C9. On a page whose [cursors] can be indexed, [startCursor] is the
    first cursor when the first item is truthy and [null] when it is
    falsy, and [endCursor] is the last cursor when the last item is truthy
    and [null] when it is falsy: what decides is the item at the boundary,
    whether or not the page has items and [cursors] has a cursor at that
    place. *)
Theorem getPaginatedConnection_falsy_boundary api path args elems m :
  paged_fetch urlJoin api path args = Resolved (VArr elems (Some m)) →
  truthy m = true →
  nullish (get_named m "cursors") = false →
  let cursors := get_named m "cursors" in
  let lastIndex := Z.of_nat (length elems) - 1 in
  ∃ connection,
    getPaginatedConnection urlJoin api path args = Resolved (Some connection) ∧
    startCursor (pageInfo connection)
    = (if truthy (elem_at elems 0) then index_value cursors 0 else VNull) ∧
    endCursor (pageInfo connection)
    = (if truthy (elem_at elems lastIndex) then index_value cursors lastIndex
       else VNull) ∧
    (truthy (elem_at elems 0) = false →
     startCursor (pageInfo connection) = VNull) ∧
    (truthy (elem_at elems lastIndex) = false →
     endCursor (pageInfo connection) = VNull) ∧
    (truthy (elem_at elems 0) = true →
     startCursor (pageInfo connection) = index_value cursors 0) ∧
    (truthy (elem_at elems lastIndex) = true →
     endCursor (pageInfo connection) = index_value cursors lastIndex).
Proof.
  intros Hfetch Hm Hc cursors lastIndex. eexists. split_and!.
  - apply (getPaginatedConnection_page _ _ _ _ _ Hfetch Hm). by right.
  - done.
  - done.
  - simpl. by intros ->.
  - simpl. fold lastIndex. by intros ->.
  - simpl. by intros ->.
  - simpl. fold lastIndex. by intros ->.
Qed.

End Paged.

(** ** The unpaged strategy *)

Section Unpaged.
Variable urlJoin : string → string → string.
Variable offsetToCursor : Z → string.
Variable cursorToOffset : string → option Z.
Implicit Types (api : HttpApi) (path : string) (args : Obj).
Implicit Types (elems : list value) (items : value).

Lemma getUnpaginatedConnection_array api path args elems m :
  unpaged_fetch urlJoin api path args = Resolved (VArr elems m) →
  getUnpaginatedConnection urlJoin offsetToCursor cursorToOffset api path args
  = (λ connection, Some (with_empty_meta connection)) <$>
      connectionFromArray offsetToCursor cursorToOffset elems
        (pick args PAGINATION_ARG_KEYS).
Proof.
  intros Hfetch. unfold getUnpaginatedConnection.
  rewrite (get_resolved _ _ _ _ Hfetch) by done. simpl.
  by destruct (connectionFromArray _ _ _ _).
Qed.




Lemma getUnpaginatedConnection_not_array api path args items :
  unpaged_fetch urlJoin api path args = Resolved items →
  isArray items = false →
  getUnpaginatedConnection urlJoin offsetToCursor cursorToOffset api path args
  = Rejected
      (if isError items then items
       else VError ("Expected `GET` to return an array of items, got: "
                      +:+ typeof items +:+ " instead")).
Proof.
  intros Hfetch Harr. unfold getUnpaginatedConnection, get, makePath, load.
  unfold unpaged_fetch in Hfetch. rewrite Hfetch. simpl. unfold settle.
  destruct (isError items) eqn:He; [done|]. simpl. by rewrite Harr.
Qed.

(** C4. A paged result that has no [meta] makes [getPaginatedConnection]
    reject with the error of its invariant, and a result that is not an
    array makes [getUnpaginatedConnection] reject, with the error of its
    invariant or, when the result is itself an [Error], with that; neither
    call resolves with a connection. *)
Theorem contract_violation_rejects api path args items :
  (paged_fetch urlJoin api path args = Resolved items →
   truthy items = true → isError items = false →
   truthy (get_meta items) = false →
   getPaginatedConnection urlJoin api path args
   = Rejected (VError "Unexpected format. `GET` should return an array of items with a `meta` property containing an array of cursors and `hasNextPage`")) ∧
  (unpaged_fetch urlJoin api path args = Resolved items →
   isArray items = false →
   getUnpaginatedConnection urlJoin offsetToCursor cursorToOffset api path args
   = Rejected
       (if isError items then items
        else VError ("Expected `GET` to return an array of items, got: "
                       +:+ typeof items +:+ " instead"))).
Proof.
  split.
  - apply getPaginatedConnection_no_meta.
  - apply getUnpaginatedConnection_not_array.
Qed.

(** C10. [getUnpaginatedConnection] never resolves with [null]; when the
    backend answers [null] or [undefined], the call rejects with the error
    of the array invariant. *)
Theorem getUnpaginatedConnection_never_null api path args :
  getUnpaginatedConnection urlJoin offsetToCursor cursorToOffset api path args
    ≠ Resolved None ∧
  (∀ items, unpaged_fetch urlJoin api path args = Resolved items →
     nullish items = true →
     getUnpaginatedConnection urlJoin offsetToCursor cursorToOffset api path args
     = Rejected (VError ("Expected `GET` to return an array of items, got: "
                           +:+ typeof items +:+ " instead"))).
Proof.
  split.
  - unfold getUnpaginatedConnection.
    destruct (get _ _ _ _) as [items|e]; [|done]. simpl.
    destruct items; try done. simpl.
    by destruct (connectionFromArray _ _ _ _).
  - intros items Hfetch Hnull.
    rewrite (getUnpaginatedConnection_not_array _ _ _ _ Hfetch)
      by by destruct items.
    by destruct items.
Qed.


End Unpaged.

(** ** The keyed loader *)

Section KeyedLoader.
Implicit Types (api : HttpApi) (keys : list string) (order : list nat).

Lemma fmap_resolved {A B} (f : A → Outcome B) (l : list A) (vs : list B) :
  Forall2 (λ x v, f x = Resolved v) l vs → f <$> l = Resolved <$> vs.
Proof.
  induction 1 as [|x v l vs Hx _ IH]; [done|].
  by rewrite !fmap_cons, Hx, IH.
Qed.

Lemma createLoader_batch_resolved api getPath getKey keys order vs :
  Forall2 (λ chunkKeys v,
             request api GET (getPath chunkKeys) VUndefined = Resolved v)
          (chunk keys (numKeysPerChunk api)) vs →
  complete (length (chunk keys (numKeysPerChunk api))) order →
  createLoader_batch api getPath getKey keys order
  = Some (demultiplex getKey keys vs).
Proof.
  intros Hvs Hc. unfold createLoader_batch.
  rewrite (fmap_resolved _ _ _ Hvs).
  rewrite Promise_all_resolved; [done|].
  by rewrite <- (Forall2_length _ _ _ Hvs).
Qed.

Lemma chunk_sizes_60 keys :
  length keys = 60%nat → length <$> chunk keys 25 = [25; 25; 10]%nat.
Proof.
  intros Hlen. rewrite chunk_slices by done. rewrite Hlen.
  change ((60 + Z.to_nat 25 - 1) `div` Z.to_nat 25)%nat with 3%nat.
  change (Z.to_nat 25) with 25%nat. simpl.
  rewrite !length_take, !length_drop, Hlen. done.
Qed.

(** C5. With a chunk size of at least 1, every chunk request resolving and
    settling in whatever order, and no lookup leaving the own properties of
    the accumulator: the chunks are the consecutive slices of the keys of
    that size, none empty, and together they are the keys in their order;
    60 keys at the default size 25 give chunks of 25, 25 and 10; and the
    batch function resolves with one list for each key, in the order of the
    keys, holding the items of that key in the order of the chunks. *)
Theorem createLoader_chunks_in_key_order api getPath getKey keys order vs :
  0 < numKeysPerChunk api →
  Forall2 (λ chunkKeys v,
             request api GET (getPath chunkKeys) VUndefined = Resolved v)
          (chunk keys (numKeysPerChunk api)) vs →
  complete (length (chunk keys (numKeysPerChunk api))) order →
  own_lookups getKey keys (returned_items vs) →
  let size := Z.to_nat (numKeysPerChunk api) in
  let chunks := chunk keys (numKeysPerChunk api) in
  concat chunks = keys ∧
  (∀ i chunkKeys, chunks !! i = Some chunkKeys →
     chunkKeys = take size (drop (i * size) keys) ∧
     (0 < length chunkKeys ≤ size)%nat) ∧
  (∀ options request, numKeysPerChunk (new_HttpApi options request) = 25) ∧
  (length keys = 60%nat → numKeysPerChunk api = 25 →
   length <$> chunks = [25; 25; 10]%nat) ∧
  createLoader_batch api getPath getKey keys order
  = Some (Resolved
            ((λ key, VArr (items_for getKey (returned_items vs) key) None)
               <$> keys)).
Proof.
  intros Hsize Hvs Hc Hown size chunks. split_and!.
  - by apply chunk_concat.
  - intros i chunkKeys Hi.
    destruct (chunk_lookup _ _ _ _ Hsize Hi) as [-> Hlt].
    split; [done|]. rewrite length_take, length_drop. lia.
  - done.
  - intros Hlen H25. unfold chunks. rewrite H25. by apply chunk_sizes_60.
  - rewrite (createLoader_batch_resolved _ _ _ _ _ _ Hvs Hc).
    by rewrite demultiplex_own.
Qed.

End KeyedLoader.

(** Three keys in chunks of two, the second chunk settling first; one item
    comes back for a key that was not asked for. *)
Lemma createLoader_chunks_in_key_order_witness :
  createLoader_batch
    {| _origin := ""; _apiBase := ""; _externalOrigin := "";
       qs := querystring; numKeysPerChunk := 2;
       request := fixed_backend
         [("/things?id=a,b", Resolved (VArr [thing "b"; thing "a"; thing "b"] None));
          ("/things?id=c", Resolved (VArr [thing "z"] None))] |}
    things_path id_key ["a"; "b"; "c"] [1; 0]%nat
  = Some (Resolved [VArr [thing "a"] None;
                    VArr [thing "b"; thing "b"] None;
                    VArr [] None]).
Proof.
  set (api := {| _origin := ""; _apiBase := ""; _externalOrigin := "";
       qs := querystring; numKeysPerChunk := 2;
       request := fixed_backend
         [("/things?id=a,b", Resolved (VArr [thing "b"; thing "a"; thing "b"] None));
          ("/things?id=c", Resolved (VArr [thing "z"] None))] |}).
  assert (0 < numKeysPerChunk api) as Hsize by done.
  assert (complete (length (chunk ["a"; "b"; "c"] (numKeysPerChunk api)))
                   [1; 0]%nat) as Hc.
  { intros i Hi. destruct i as [|[|i]]; [compute_done..|simpl in Hi; lia]. }
  assert (Forall2 (λ chunkKeys v,
             request api GET (things_path chunkKeys) VUndefined = Resolved v)
          (chunk ["a"; "b"; "c"] (numKeysPerChunk api))
          [VArr [thing "b"; thing "a"; thing "b"] None; VArr [thing "z"] None])
    as Hvs.
  { repeat constructor. }
  assert (own_lookups id_key ["a"; "b"; "c"]
            (returned_items
               [VArr [thing "b"; thing "a"; thing "b"] None;
                VArr [thing "z"] None])) as Hown.
  { split; [compute_done|]. intros item Hitem.
    vm_compute in Hitem.
    repeat (apply elem_of_cons in Hitem as [-> | Hitem]);
      [compute_done..|].
    by apply elem_of_nil in Hitem. }
  destruct (createLoader_chunks_in_key_order api things_path id_key
              ["a"; "b"; "c"] [1; 0]%nat _ Hsize Hvs Hc Hown)
    as (_ & _ & _ & _ & ->).
  reflexivity.
Defined.

(** C6, at an item whose key names a member of [Object.prototype]. An item
    whose key was not requested is dropped when the key is [zzz]; when the
    key is [constructor], the lookup finds the inherited member, the call
    of its [push] throws, and the batch function rejects. *)
Theorem createLoader_inherited_key_rejects :
  createLoader_batch
    (example_api [("/things?id=a", Resolved (VArr [thing "a"; thing "zzz"] None))])
    things_path id_key ["a"] [0%nat]
  = Some (Resolved [VArr [thing "a"] None]) ∧
  createLoader_batch
    (example_api [("/things?id=a",
                   Resolved (VArr [thing "a"; thing "constructor"] None))])
    things_path id_key ["a"] [0%nat]
  = Some (Rejected (VError "TypeError: itemsByKey[key].push is not a function")).
Proof. split; reflexivity. Qed.

(** C1, at a page whose first item is falsy. The page has two items and
    the cursors [c0] and [c1]; the edges pair them, [hasNextPage] is the
    backend's and [hasPreviousPage] is false for want of [after], but
    [startCursor] is [null], not [c0], because the first item is [0]. *)
Theorem getPaginatedConnection_falsy_first_item :
  getPaginatedConnection concat_urlJoin
    (example_api
       [("http://backend/api/numbers?cursor=&limit=2&pageSize=2",
         Resolved
           (VArr [VNum 0; VNum 7]
              (Some (VObj [("cursors", VArr [VStr "c0"; VStr "c1"] None);
                           ("hasNextPage", VBool true)]))))])
    "/numbers" [("first", VNum 2)]
  = Resolved (Some
      {| edges := [ {| node := VNum 0; cursor := VStr "c0" |};
                    {| node := VNum 7; cursor := VStr "c1" |} ];
         pageInfo := {| startCursor := VNull;
                        endCursor := VStr "c1";
                        hasPreviousPage := VBool false;
                        hasNextPage := VBool true |};
         meta := [] |}).
Proof. reflexivity. Qed.

(** ** Objects and the order of their keys *)

Section KeyOrder.
Implicit Types (o a : Obj) (k : string) (v : value).

Lemma obj_has_keys o k : obj_has o k = true ↔ k ∈ o.*1.
Proof.
  induction o as [|[k' v'] o IH]; simpl.
  - split; [done|]. by intros ?%elem_of_nil.
  - rewrite orb_true_iff, IH, elem_of_cons.
    destruct (String.eqb_spec k' k); naive_solver.
Qed.

Lemma obj_get_absent o k : k ∉ o.*1 → obj_get o k = VUndefined.
Proof.
  induction o as [|[k' v'] o IH]; simpl; [done|].
  intros [Hne Hnot]%not_elem_of_cons.
  destruct (String.eqb_spec k' k); [congruence|by apply IH].
Qed.

Lemma obj_get_elem o k v : distinct_keys o → (k, v) ∈ o → obj_get o k = v.
Proof.
  unfold distinct_keys. induction o as [|[k' v'] o IH]; simpl.
  - by intros _ ?%elem_of_nil.
  - intros [Hnot Hnd]%NoDup_cons [Heq|Hin]%elem_of_cons.
    + injection Heq as -> ->. by rewrite String.eqb_refl.
    + destruct (String.eqb_spec k' k) as [->|_]; [|by apply IH].
      exfalso. apply Hnot. apply list_elem_of_fmap. by exists (k, v).
Qed.

Lemma obj_replace_keys o k v : (obj_replace o k v).*1 = o.*1.
Proof.
  induction o as [|[k' v'] o IH]; [done|]. cbn [obj_replace].
  destruct (String.eqb_spec k' k) as [->|_]; [done|].
  by rewrite !fmap_cons, IH.
Qed.

Lemma elem_of_obj_replace o k v k' v' :
  distinct_keys o → k ∈ o.*1 →
  (k', v') ∈ obj_replace o k v ↔ (k' = k ∧ v' = v) ∨ (k' ≠ k ∧ (k', v') ∈ o).
Proof.
  unfold distinct_keys. induction o as [|[k0 v0] o IH].
  - by intros _ ?%elem_of_nil.
  - rewrite fmap_cons. cbn [fst obj_replace].
    intros [Hnot Hnd]%NoDup_cons Hin.
    destruct (String.eqb_spec k0 k) as [->|Hne].
    + rewrite !elem_of_cons. split.
      * intros [[= -> ->]|Hin']; [by left|]. right. split; [|by right].
        intros ->. apply Hnot. apply list_elem_of_fmap. by exists (k, v').
      * intros [[-> ->]|[Hne [[= -> ->]|Hin']]]; [by left|done|by right].
    + apply elem_of_cons in Hin as [?|Hin]; [congruence|].
      rewrite !elem_of_cons, (IH Hnd Hin). split.
      * intros [[= -> ->]|[[-> ->]|[? ?]]].
        -- right. split; [done|by left].
        -- by left.
        -- right. split; [done|by right].
      * intros [[-> ->]|[? [[= -> ->]|?]]].
        -- right. by left.
        -- by left.
        -- right. right. by split.
Qed.

Lemma obj_insert_index_perm o n k v : obj_insert_index o n k v ≡ₚ (k, v) :: o.
Proof.
  induction o as [|[k' v'] o IH]; [done|]. cbn [obj_insert_index].
  destruct (array_index k') as [n'|]; [|done].
  destruct (n' <? n)%N; [|done].
  rewrite IH. apply perm_swap.
Qed.

(** A new property is added to the others, wherever it is enumerated. *)
Lemma obj_set_new o k v : k ∉ o.*1 → obj_set o k v ≡ₚ (k, v) :: o.
Proof.
  intros Hnot. unfold obj_set.
  destruct (obj_has o k) eqn:Hhas.
  { apply obj_has_keys in Hhas. done. }
  destruct (array_index k); [apply obj_insert_index_perm|].
  by rewrite Permutation_app_comm.
Qed.

Lemma obj_set_distinct o k v : distinct_keys o → distinct_keys (obj_set o k v).
Proof.
  unfold distinct_keys. intros Hnd.
  destruct (decide (k ∈ o.*1)) as [Hin|Hnot].
  - unfold obj_set. rewrite (proj2 (obj_has_keys o k) Hin).
    by rewrite obj_replace_keys.
  - rewrite (obj_set_new o k v Hnot), fmap_cons. by apply NoDup_cons.
Qed.

Lemma elem_of_obj_set o k v k' v' :
  distinct_keys o →
  (k', v') ∈ obj_set o k v ↔ (k' = k ∧ v' = v) ∨ (k' ≠ k ∧ (k', v') ∈ o).
Proof.
  intros Hnd. destruct (decide (k ∈ o.*1)) as [Hin|Hnot].
  - unfold obj_set. rewrite (proj2 (obj_has_keys o k) Hin).
    by apply elem_of_obj_replace.
  - rewrite (obj_set_new o k v Hnot), elem_of_cons. split.
    + intros [[= -> ->]|Hin]; [by left|]. right. split; [|done].
      intros ->. apply Hnot. apply list_elem_of_fmap. by exists (k, v').
    + intros [[-> ->]|[_ ?]]; [by left|by right].
Qed.

Lemma obj_spread_spec o a :
  distinct_keys o → distinct_keys a →
  distinct_keys (obj_spread o a) ∧
  ∀ k v, (k, v) ∈ obj_spread o a ↔ (k, v) ∈ a ∨ ((k ∉ a.*1) ∧ (k, v) ∈ o).
Proof.
  unfold obj_spread. revert o.
  induction a as [|[k0 v0] a IH]; intros o Ho Ha.
  - split; [done|]. intros k v. simpl. split.
    + intros Hin. right. split; [|done]. by intros ?%elem_of_nil.
    + by intros [?%elem_of_nil|[_ ?]].
  - unfold distinct_keys in Ha. rewrite fmap_cons in Ha.
    apply NoDup_cons in Ha as [Hnot Ha]. cbn [foldl fst snd] in *.
    destruct (IH (obj_set o k0 v0)) as [Hnd Hspec];
      [by apply obj_set_distinct|done|].
    split; [done|]. intros k v.
    rewrite Hspec, (elem_of_obj_set o k0 v0 k v Ho), fmap_cons.
    cbn [fst]. rewrite (not_elem_of_cons (a.*1) k k0), elem_of_cons.
    split.
    + intros [Hin|[Hk [[-> ->]|[Hne Hin]]]].
      * left. by right.
      * left. by left.
      * by right.
    + intros [[Heq|Hin]|[[Hne Hk] Hin]].
      * injection Heq as -> ->. right. split; [done|]. by left.
      * by left.
      * right. split; [done|]. by right.
Qed.

(** The spread of two enumerations of the same arguments over a query gives
    two enumerations of the same object. *)
Lemma obj_spread_perm o a1 a2 :
  distinct_keys o → distinct_keys a1 → a1 ≡ₚ a2 →
  distinct_keys (obj_spread o a1) ∧ obj_spread o a1 ≡ₚ obj_spread o a2.
Proof.
  intros Ho Ha1 Hperm.
  assert (distinct_keys a2) as Ha2.
  { unfold distinct_keys. by rewrite <- Hperm. }
  destruct (obj_spread_spec o a1 Ho Ha1) as [Hnd1 Hspec1].
  destruct (obj_spread_spec o a2 Ho Ha2) as [Hnd2 Hspec2].
  split; [done|].
  apply NoDup_Permutation.
  - by eapply NoDup_fmap_1.
  - by eapply NoDup_fmap_1.
  - intros [k v]. rewrite Hspec1, Hspec2. by rewrite Hperm.
Qed.

(** C2, as amended. For every path and every two enumerations of the same
    argument object, [makePath] gives the same canonical path provided the
    [stringify] of the codec does not depend on the order of the keys (and
    its [parse] gives objects). *)
Theorem makePath_order_independent (api : HttpApi) (path : string) a1 a2 :
  order_insensitive (qs api) →
  parses_objects (qs api) →
  distinct_keys a1 →
  a1 ≡ₚ a2 →
  makePath api path (Some a1) = makePath api path (Some a2).
Proof.
  intros Hstr Hparse Ha1 Hperm. unfold makePath.
  set (query := match split_on "?" path !! 1%nat with
                | Some s => if truthy (VStr s) then parse (qs api) s else []
                | None => []
                end).
  assert (distinct_keys query) as Hq.
  { unfold query. destruct (_ !! 1%nat) as [s|]; [|apply NoDup_nil_2].
    destruct (truthy (VStr s)); [apply Hparse|apply NoDup_nil_2]. }
  destruct (obj_spread_perm query a1 a2 Hq Ha1 Hperm) as [Hnd Hp].
  by rewrite (Hstr _ _ Hnd Hp).
Qed.

Lemma obj_has_perm o1 o2 k : o1 ≡ₚ o2 → obj_has o1 k = obj_has o2 k.
Proof.
  intros Hperm. apply eq_true_iff_eq. rewrite !obj_has_keys. by rewrite Hperm.
Qed.

Lemma obj_get_perm o1 o2 k :
  distinct_keys o1 → o1 ≡ₚ o2 → obj_get o1 k = obj_get o2 k.
Proof.
  intros Hnd Hperm.
  assert (distinct_keys o2) as Hnd2.
  { unfold distinct_keys. by rewrite <- Hperm. }
  destruct (decide (k ∈ o1.*1)) as [Hin|Hnot].
  - apply list_elem_of_fmap in Hin as ([k' v] & -> & Hin). simpl.
    rewrite (obj_get_elem o1 k' v) by done.
    rewrite (obj_get_elem o2 k' v); [done..|]. by rewrite <- Hperm.
  - rewrite !obj_get_absent; [done| |done]. by rewrite <- Hperm.
Qed.

Lemma listed_codec_order_insensitive names :
  order_insensitive (listed_codec names).
Proof.
  intros o1 o2 Hnd Hperm. simpl. unfold listed_stringify. f_equal.
  induction names as [|k names IH]; [done|].
  by rewrite !bind_cons, IH, (obj_has_perm o1 o2 k Hperm),
    (obj_get_perm o1 o2 k Hnd Hperm).
Qed.

Lemma addKeyValue_distinct o k s :
  distinct_keys o → distinct_keys (querystring.addKeyValue o k s).
Proof.
  intros Hnd. unfold querystring.addKeyValue.
  destruct (obj_has o k); [|by apply obj_set_distinct].
  destruct (obj_get o k); by apply obj_set_distinct.
Qed.

Lemma querystring_parses_objects : parses_objects querystring.
Proof.
  intros str. simpl. unfold querystring.parse.
  destruct (String.eqb str ""); [apply NoDup_nil_2|].
  generalize (take querystring.maxKeys (split_on "&" str)).
  assert (distinct_keys []) as Hnil by apply NoDup_nil_2. revert Hnil.
  generalize (@nil (string * value)). intros o Ho segs. revert o Ho.
  induction segs as [|seg segs IH]; intros o Ho; simpl; [done|].
  apply IH. destruct (String.eqb seg ""); [done|].
  destruct (querystring.segment seg). by apply addKeyValue_distinct.
Qed.

End KeyOrder.

Lemma listed_codec_parses_objects names : parses_objects (listed_codec names).
Proof. intros str. apply querystring_parses_objects. Qed.

(** With a codec that writes [a] before [b] whatever the order of the keys,
    the two orders of [{ a: 1, b: 2 }] give one canonical path. *)
Lemma makePath_order_independent_witness :
  distinct_keys [("a", VNum 1); ("b", VNum 2)] ∧
  [("a", VNum 1); ("b", VNum 2)] ≡ₚ [("b", VNum 2); ("a", VNum 1)] ∧
  makePath (listed_api ["a"; "b"]) "/x" (Some [("a", VNum 1); ("b", VNum 2)])
  = makePath (listed_api ["a"; "b"]) "/x" (Some [("b", VNum 2); ("a", VNum 1)]).
Proof.
  assert (distinct_keys [("a", VNum 1); ("b", VNum 2)]) as Hd.
  { unfold distinct_keys. compute_done. }
  assert ([("a", VNum 1); ("b", VNum 2)] ≡ₚ [("b", VNum 2); ("a", VNum 1)])
    as Hp by apply perm_swap.
  split_and!; [done..|].
  apply (makePath_order_independent (listed_api ["a"; "b"]) "/x" _ _
           (listed_codec_order_insensitive ["a"; "b"])
           (listed_codec_parses_objects ["a"; "b"]) Hd Hp).
Defined.

(** C2, the claim as stated fails: with the codec of the class, Node's
    [querystring], the two orders of [{ a: 1, b: 2 }] give two different
    canonical paths. *)
Lemma makePath_order_dependent :
  makePath (example_api []) "/x" (Some [("a", VNum 1); ("b", VNum 2)])
    = "/x?a=1&b=2" ∧
  makePath (example_api []) "/x" (Some [("b", VNum 2); ("a", VNum 1)])
    = "/x?b=2&a=1" ∧
  makePath (example_api []) "/x" (Some [("a", VNum 1); ("b", VNum 2)])
    ≠ makePath (example_api []) "/x" (Some [("b", VNum 2); ("a", VNum 1)]).
Proof. split_and!; [reflexivity..|]. vm_compute. discriminate. Qed.

(** A backend without the resource answers [null]; one with an empty page
    answers an empty array with its [meta]. *)
Lemma getPaginatedConnection_null_or_empty_witness :
  getPaginatedConnection concat_urlJoin (example_api []) "/things" []
    = Resolved None ∧
  ∃ connection,
    getPaginatedConnection concat_urlJoin
      (example_api
         [("http://backend/api/things?cursor=&limit=&pageSize=",
           Resolved (VArr [] (Some (VObj [("cursors", VArr [] None);
                                          ("hasNextPage", VBool false)]))))])
      "/things" []
    = Resolved (Some connection) ∧
    edges connection = [].
Proof.
  split.
  - by apply (getPaginatedConnection_null_or_empty concat_urlJoin
                (example_api []) "/things" []).
  - destruct (getPaginatedConnection_null_or_empty concat_urlJoin
      (example_api
         [("http://backend/api/things?cursor=&limit=&pageSize=",
           Resolved (VArr [] (Some (VObj [("cursors", VArr [] None);
                                          ("hasNextPage", VBool false)]))))])
      "/things" []) as [_ Hempty].
    destruct (Hempty _ eq_refl eq_refl) as (connection & Hres & Hedges & _).
    by exists connection.
Defined.

(** An array without [meta] for the paged call, an object for the unpaged
    one. *)
Lemma contract_violation_rejects_witness :
  getPaginatedConnection concat_urlJoin
    (example_api [("http://backend/api/things?cursor=&limit=&pageSize=",
                   Resolved (VArr [thing "a"] None))])
    "/things" []
  = Rejected (VError "Unexpected format. `GET` should return an array of items with a `meta` property containing an array of cursors and `hasNextPage`") ∧
  getUnpaginatedConnection concat_urlJoin relay.offsetToCursor
    relay.cursorToOffset
    (example_api [("http://backend/api/things", Resolved (thing "a"))])
    "/things" []
  = Rejected (VError "Expected `GET` to return an array of items, got: object instead").
Proof.
  split.
  - by apply (contract_violation_rejects concat_urlJoin relay.offsetToCursor
                relay.cursorToOffset
                (example_api [("http://backend/api/things?cursor=&limit=&pageSize=",
                               Resolved (VArr [thing "a"] None))])
                "/things" [] (VArr [thing "a"] None)).
  - by apply (contract_violation_rejects concat_urlJoin relay.offsetToCursor
                relay.cursorToOffset
                (example_api [("http://backend/api/things", Resolved (thing "a"))])
                "/things" [] (thing "a")).
Defined.

(** A page of two numbers: its first item is [0] and its first cursor is
    [c0]; its last item is [7]. *)
Lemma getPaginatedConnection_falsy_boundary_witness :
  ∃ connection,
    getPaginatedConnection concat_urlJoin
      (example_api
         [("http://backend/api/numbers?cursor=&limit=2&pageSize=2",
           Resolved
             (VArr [VNum 0; VNum 7]
                (Some (VObj [("cursors", VArr [VStr "c0"; VStr "c1"] None);
                             ("hasNextPage", VBool true)]))))])
      "/numbers" [("first", VNum 2)]
    = Resolved (Some connection) ∧
    startCursor (pageInfo connection) = VNull ∧
    endCursor (pageInfo connection) = VStr "c1".
Proof.
  destruct (getPaginatedConnection_falsy_boundary concat_urlJoin
      (example_api
         [("http://backend/api/numbers?cursor=&limit=2&pageSize=2",
           Resolved
             (VArr [VNum 0; VNum 7]
                (Some (VObj [("cursors", VArr [VStr "c0"; VStr "c1"] None);
                             ("hasNextPage", VBool true)]))))])
      "/numbers" [("first", VNum 2)] _ _ eq_refl eq_refl eq_refl)
    as (connection & Hres & Hstart & Hend & _).
  exists connection. split_and!; [done|exact Hstart|exact Hend].
Defined.

(** A backend that answers [null]. *)
Lemma getUnpaginatedConnection_never_null_witness :
  getUnpaginatedConnection concat_urlJoin relay.offsetToCursor
    relay.cursorToOffset (example_api []) "/things" [("first", VNum 3)]
  = Rejected (VError "Expected `GET` to return an array of items, got: object instead").
Proof.
  destruct (getUnpaginatedConnection_never_null concat_urlJoin
              relay.offsetToCursor relay.cursorToOffset (example_api [])
              "/things" [("first", VNum 3)]) as [_ Hnull].
  by apply (Hnull VNull).
Defined.


Example stringify_ex :
  stringify querystring
    [("a", VNum 1); ("b c", VStr "x&y"); ("t", VArr [VStr "u"; VBool true] None);
     ("n", VNull)]
  = "a=1&b%20c=x%26y&t=u&t=true&n=".
Proof. reflexivity. Qed.

Example parse_ex :
  parse querystring "a=1&&b=x%26y+z&a=2&c&=d&a=3"
  = [("a", VArr [VStr "1"; VStr "2"; VStr "3"] None); ("b", VStr "x&y z");
     ("c", VStr ""); ("", VStr "d")].
Proof. reflexivity. Qed.


(** An index key is enumerated before the keys that are no index, whenever
    it is added. *)
Example obj_spread_index_key :
  obj_spread [("b", VNum 1)] [("10", VNum 2); ("2", VNum 3); ("c", VNum 4)]
  = [("2", VNum 3); ("10", VNum 2); ("b", VNum 1); ("c", VNum 4)] ∧
  makePath (example_api []) "/x?b=1" (Some [("2", VNum 3)]) = "/x?2=3&b=1".
Proof. split; reflexivity. Qed.

(** ** Lookups in merged and reduced objects *)

Lemma obj_spread_lookup (o a : Obj) k :
  distinct_keys o → distinct_keys a →
  obj_has (obj_spread o a) k = obj_has a k || obj_has o k ∧
  obj_get (obj_spread o a) k = if obj_has a k then obj_get a k else obj_get o k.
Proof.
  intros Ho Ha. destruct (obj_spread_spec _ _ Ho Ha) as [Hnd Hspec]. split.
  - apply eq_true_iff_eq. rewrite orb_true_iff, !obj_has_keys.
    rewrite !list_elem_of_fmap. split.
    + intros ([k' v] & -> & [Hin|[_ Hin]]%Hspec); [left|right]; by exists (k', v).
    + intros [([k' v] & -> & Hin)|([k' v] & -> & Hin)].
      * exists (k', v). split; [done|]. apply Hspec. by left.
      * destruct (decide (k' ∈ a.*1)) as [Hk|Hk].
        -- apply list_elem_of_fmap in Hk as ([k2 v2] & Heq & Hin2).
           simpl in Heq. subst k2. exists (k', v2). split; [done|].
           apply Hspec. by left.
        -- exists (k', v). split; [done|]. apply Hspec. by right.
  - destruct (obj_has a k) eqn:Hhas.
    + apply obj_has_keys, list_elem_of_fmap in Hhas as ([k' v] & -> & Hin).
      simpl. rewrite (obj_get_elem a k' v Ha Hin).
      apply obj_get_elem; [done|]. apply Hspec. by left.
    + assert (k ∉ a.*1) as Hk.
      { intros Hin%obj_has_keys. congruence. }
      destruct (decide (k ∈ o.*1)) as [Hq|Hq].
      * apply list_elem_of_fmap in Hq as ([k' v] & -> & Hin). simpl in *.
        rewrite (obj_get_elem _ k' v Ho Hin).
        apply obj_get_elem; [done|]. apply Hspec. by right.
      * rewrite (obj_get_absent _ _ Hq). apply obj_get_absent.
        intros ([k' v] & -> & [Hin|[_ Hin]]%Hspec)%list_elem_of_fmap.
        -- apply Hk. apply list_elem_of_fmap. by exists (k', v).
        -- apply Hq. apply list_elem_of_fmap. by exists (k', v).
Qed.

Lemma omit_keys (o : Obj) ks k : k ∈ (omit o ks).*1 ↔ k ∈ o.*1 ∧ k ∉ ks.
Proof.
  unfold omit. rewrite !list_elem_of_fmap. split.
  - intros ([k' v] & -> & [Hk Hin]%list_elem_of_filter). split; [|done].
    by exists (k', v).
  - intros [([k' v] & -> & Hin) Hk]. exists (k', v). split; [done|].
    by apply list_elem_of_filter.
Qed.

Lemma obj_has_omit (o : Obj) ks k :
  obj_has (omit o ks) k = obj_has o k && bool_decide (k ∉ ks).
Proof.
  apply eq_true_iff_eq.
  rewrite andb_true_iff, !obj_has_keys, bool_decide_eq_true. apply omit_keys.
Qed.

Lemma obj_get_omit (o : Obj) ks k : k ∉ ks → obj_get (omit o ks) k = obj_get o k.
Proof.
  intros Hk. unfold omit. induction o as [|[k' v'] o IH]; [done|].
  simpl. destruct (String.eqb_spec k' k) as [->|Hne].
  - rewrite filter_cons_True by done. simpl. by rewrite String.eqb_refl.
  - rewrite filter_cons. simpl. case_decide; [|done]. simpl.
    destruct (String.eqb_spec k' k); [done|]. apply IH.
Qed.

Lemma omit_distinct (o : Obj) ks : distinct_keys o → distinct_keys (omit o ks).
Proof.
  unfold distinct_keys, omit. induction o as [|[k' v'] o IH]; [done|].
  rewrite fmap_cons. intros [Hnot Hnd]%NoDup_cons.
  rewrite filter_cons. case_decide; [|by apply IH].
  rewrite fmap_cons. apply NoDup_cons. split; [|by apply IH].
  intros [Hin _]%(omit_keys o ks). done.
Qed.

(** ** More on [makePath] *)

Section MakePath.
Implicit Types (api : HttpApi) (path base : string) (args : Obj).

Lemma split_on_absent c s : has_char c s = false → split_on c s = [s].
Proof.
  induction s as [|c' s IH]; [done|]. simpl.
  intros [Hc Hs]%orb_false_iff. rewrite Hc, (IH Hs). done.
Qed.

Lemma split_on_first c a b :
  has_char c a = false →
  split_on c (a +:+ String c b) = a :: split_on c b.
Proof.
  induction a as [|c' a IH]; simpl.
  - intros _. by rewrite Ascii.eqb_refl.
  - intros [Hc Ha]%orb_false_iff. rewrite Hc, (IH Ha). done.
Qed.


(** X2. With Node's codec, an empty argument object leaves a path that has no
    query as it is: no [?] is added. *)
Theorem makePath_no_arguments api path :
  qs api = querystring →
  has_char "?" path = false →
  makePath api path (Some []) = path.
Proof.
  intros Hqs Hpath. unfold makePath.
  rewrite (split_on_absent _ _ Hpath), Hqs. done.
Qed.

(** X3. The arguments are merged over the query of the path: the object that is
    serialised has the value of the arguments for every key they have, and
    the value parsed from the path for every other key. *)
Theorem makePath_arguments_override api base search args :
  has_char "?" base = false →
  has_char "?" search = false →
  search ≠ "" →
  distinct_keys args →
  distinct_keys (parse (qs api) search) →
  ∃ merged,
    makePath api (base +:+ "?" +:+ search) (Some args)
    = (if String.eqb (stringify (qs api) merged) "" then base
       else base +:+ "?" +:+ stringify (qs api) merged) ∧
    distinct_keys merged ∧
    ∀ k, obj_has merged k = obj_has args k || obj_has (parse (qs api) search) k ∧
         obj_get merged k
         = if obj_has args k then obj_get args k
           else obj_get (parse (qs api) search) k.
Proof.
  intros Hbase Hsearch Hne Hargs Hquery.
  exists (obj_spread (parse (qs api) search) args).
  destruct (obj_spread_spec _ _ Hquery Hargs) as [Hnd _].
  split_and!; [|done|intros k; by apply obj_spread_lookup].
  unfold makePath.
  change (base +:+ "?" +:+ search) with (base +:+ String "?" search).
  rewrite split_on_first, (split_on_absent _ _ Hsearch) by done. simpl.
  destruct (String.eqb_spec search ""); [done|]. simpl.
  by destruct (String.eqb _ "").
Qed.

End MakePath.


Lemma makePath_no_arguments_witness :
  makePath (example_api []) "/things/5" (Some []) = "/things/5".
Proof.
  exact (makePath_no_arguments (example_api []) "/things/5" eq_refl eq_refl).
Defined.

Lemma makePath_arguments_override_witness :
  ∃ merged,
    makePath (example_api []) "/x?a=1&b=2" (Some [("a", VNum 5)])
    = "/x?" +:+ stringify querystring merged ∧
    obj_get merged "a" = VNum 5 ∧ obj_get merged "b" = VStr "2".
Proof.
  assert (distinct_keys [("a", VNum 5)]) as Hargs.
  { unfold distinct_keys. compute_done. }
  assert ("a=1&b=2" ≠ "") as Hne by discriminate.
  destruct (makePath_arguments_override (example_api []) "/x" "a=1&b=2"
              [("a", VNum 5)] eq_refl eq_refl Hne Hargs
              (querystring_parses_objects "a=1&b=2"))
    as (merged & Hpath & Hnd & Hget).
  change (qs (example_api [])) with querystring in Hpath.
  exists merged. split_and!.
  - etransitivity; [exact Hpath|].
    destruct (String.eqb_spec (stringify querystring merged) "") as [Hempty|];
      [|reflexivity].
    exfalso. vm_compute in Hpath. discriminate.
  - by rewrite (proj2 (Hget "a")).
  - by rewrite (proj2 (Hget "b")).
Defined.

(** ** More on [Promise.all] and the keyed loader *)

Section Rejections.
Context {A : Type}.
Implicit Types (ps : list (Outcome A)) (slots : list (option A)).

Lemma promise_all_run_rejected ps slots (order : list nat) i e0 :
  ps !! i = Some (Rejected e0) →
  slots !! i = Some None →
  i ∈ order →
  ∃ j e, ps !! j = Some (Rejected e) ∧
         promise_all_run ps slots order = Some (Rejected e).
Proof.
  intros Hi. revert slots.
  induction order as [|k order IH]; intros slots Hslot Hin.
  - by apply elem_of_nil in Hin.
  - simpl. destruct (mapM id slots) as [vs|] eqn:Hall.
    { apply mapM_Some in Hall.
      destruct (Forall2_lookup_l _ _ _ _ _ Hall Hslot) as (? & _ & ?). done. }
    destruct (ps !! k) as [[a|e]|] eqn:Hk.
    + assert (k ≠ i) as Hne by (intros ->; congruence).
      apply IH.
      * by rewrite list_lookup_insert_ne.
      * apply elem_of_cons in Hin as [->|?]; done.
    + by exists k, e.
    + assert (k ≠ i) as Hne by (intros ->; congruence).
      apply IH; [done|]. apply elem_of_cons in Hin as [->|?]; done.
Qed.

(** When one of the promises rejects and every promise settles, the result
    rejects, with the reason of one of the promises that rejected. *)
Lemma Promise_all_rejected ps (order : list nat) i e0 :
  ps !! i = Some (Rejected e0) →
  complete (length ps) order →
  ∃ j e, ps !! j = Some (Rejected e) ∧
         Promise_all ps order = Some (Rejected e).
Proof.
  intros Hi Hc. unfold Promise_all.
  apply (promise_all_run_rejected ps _ order i e0 Hi).
  - apply lookup_replicate. split; [done|]. by eapply lookup_lt_Some.
  - apply Hc. by eapply lookup_lt_Some.
Qed.

End Rejections.

Section KeyedLoaderMore.
Implicit Types (api : HttpApi) (keys : list string) (order : list nat).

(** X4. One chunk request that fails fails the whole batch: the batch function
    of [createLoader] rejects with the failure of a chunk request, and
    DataLoader then rejects the load of every key of the batch with it, the
    keys of the chunks that were answered too. *)
Theorem createLoader_chunk_failure_rejects_batch
    api getPath getKey keys order i chunkKeys e0 :
  chunk keys (numKeysPerChunk api) !! i = Some chunkKeys →
  request api GET (getPath chunkKeys) VUndefined = Rejected e0 →
  complete (length (chunk keys (numKeysPerChunk api))) order →
  ∃ failed e,
    failed ∈ chunk keys (numKeysPerChunk api) ∧
    request api GET (getPath failed) VUndefined = Rejected e ∧
    createLoader_batch api getPath getKey keys order = Some (Rejected e) ∧
    dispatch keys (Rejected e) = (λ _, Rejected e) <$> keys.
Proof.
  intros Hi Hreq Hc. unfold createLoader_batch.
  set (requests := (λ chunkKeys, request api GET (getPath chunkKeys) VUndefined)
                     <$> chunk keys (numKeysPerChunk api)).
  assert (requests !! i = Some (Rejected e0)) as Hri.
  { unfold requests. by rewrite list_lookup_fmap, Hi, <- Hreq. }
  destruct (Promise_all_rejected requests order i e0 Hri) as (j & e & Hj & ->).
  { unfold requests. by rewrite length_fmap. }
  unfold requests in Hj. rewrite list_lookup_fmap in Hj.
  destruct (chunk keys (numKeysPerChunk api) !! j) as [failed|] eqn:Hfailed;
    [|done].
  simpl in Hj. exists failed, e. split_and!; [|congruence|done..].
  by eapply list_elem_of_lookup_2.
Qed.

(** X5. With a chunk size below 1 there is no chunk: no request is made, and
    every key is given an empty list, whatever the backend would answer. *)
Theorem createLoader_no_chunk api getPath getKey keys order :
  numKeysPerChunk api < 1 →
  "__proto__" ∉ keys →
  chunk keys (numKeysPerChunk api) = [] ∧
  createLoader_batch api getPath getKey keys order
  = Some (Resolved ((λ _, VArr [] None) <$> keys)).
Proof.
  intros Hsize Hproto.
  assert (chunk keys (numKeysPerChunk api) = []) as Hchunk.
  { unfold chunk. rewrite bool_decide_eq_true_2; [done|]. right. lia. }
  split; [done|]. unfold createLoader_batch. rewrite Hchunk.
  transitivity (Some (demultiplex getKey keys [])); [by destruct order|].
  rewrite demultiplex_own; [done|]. split; [done|].
  by intros item ?%elem_of_nil.
Qed.

(** X6. There are [ceil(n / size)] chunks for [n] keys, and every chunk but
    the last has exactly [size] keys. *)
Theorem chunk_count_and_full_chunks {A} (l : list A) (size : Z) i c :
  0 < size →
  chunk l size !! i = Some c →
  length (chunk l size)
  = ((length l + Z.to_nat size - 1) `div` Z.to_nat size)%nat ∧
  ((S i < length (chunk l size))%nat → length c = Z.to_nat size).
Proof.
  intros Hsize Hc.
  assert (length (chunk l size)
          = ((length l + Z.to_nat size - 1) `div` Z.to_nat size)%nat) as Hlen.
  { by rewrite chunk_slices, length_fmap, length_seq. }
  split; [done|]. intros Hlast.
  destruct (chunk_lookup _ _ _ _ Hsize Hc) as [-> _].
  rewrite length_take, length_drop.
  pose proof (ceil_div_bounds (length l) (Z.to_nat size)) as [_ Hup]; [lia|].
  rewrite Hlen in Hlast. nia.
Qed.

(** X7. The items of a batch are the truthy elements of the chunk answers that
    are arrays, and the truthy chunk answers that are no array; a [null]
    answer or element is left out. *)
Theorem returned_items_spec (chunkedItems : list value) item :
  item ∈ returned_items chunkedItems ↔
  truthy item = true ∧
  ((∃ elems m, VArr elems m ∈ chunkedItems ∧ item ∈ elems) ∨
   (item ∈ chunkedItems ∧ isArray item = false)).
Proof.
  unfold returned_items, flatten.
  rewrite list_elem_of_filter, list_elem_of_bind. split.
  - intros [Ht (v & Hin & Hv)]. split; [done|].
    destruct v; try (apply list_elem_of_singleton in Hin as ->; by right).
    left. by eexists _, _.
  - intros [Ht [(elems & m & Harr & Hin)|[Hin Hna]]]; (split; [done|]).
    + by exists (VArr elems m).
    + exists item. split; [|done].
      destruct item; try done; by apply list_elem_of_singleton.
Qed.

End KeyedLoaderMore.

(** ** More on the paged strategy *)

Section PagedMore.
Variable urlJoin : string → string → string.
Variable offsetToCursor : Z → string.
Variable cursorToOffset : string → option Z.
Implicit Types (api : HttpApi) (path : string) (args : Obj).
Implicit Types (elems : list value) (m items : value).

(** X8. The fields of the backend's [meta] other than [cursors] and
    [hasNextPage] are the [meta] of the connection, unchanged; those two
    are never in it. *)
Theorem getPaginatedConnection_meta_passes api path args elems fields :
  paged_fetch urlJoin api path args
  = Resolved (VArr elems (Some (VObj fields))) →
  elems = [] ∨ nullish (obj_get fields "cursors") = false →
  ∃ connection,
    getPaginatedConnection urlJoin api path args = Resolved (Some connection) ∧
    obj_has (meta connection) "cursors" = false ∧
    obj_has (meta connection) "hasNextPage" = false ∧
    ∀ k, k ≠ "cursors" → k ≠ "hasNextPage" →
         obj_has (meta connection) k = obj_has fields k ∧
         obj_get (meta connection) k = obj_get fields k.
Proof.
  intros Hfetch Hcursors. eexists. split_and!.
  - by apply (getPaginatedConnection_page _ _ _ _ _ _ Hfetch).
  - simpl. rewrite obj_has_omit, bool_decide_eq_false_2, andb_false_r; [done|].
    intros Hnot. apply Hnot. compute_done.
  - simpl. rewrite obj_has_omit, bool_decide_eq_false_2, andb_false_r; [done|].
    intros Hnot. apply Hnot. compute_done.
  - intros k Hc Hn. simpl.
    assert (k ∉ ["cursors"; "hasNextPage"]) as Hk.
    { rewrite !not_elem_of_cons. split_and!; [done..|apply not_elem_of_nil]. }
    rewrite obj_has_omit, (obj_get_omit _ _ _ Hk).
    by rewrite (bool_decide_eq_true_2 _ Hk), andb_true_r.
Qed.

(** X9. The backend is asked with [cursor] for [after] and with [limit] and
    [pageSize] for [first]; [after] and [first] themselves are not sent, and
    every other argument is sent as it is. *)
Theorem paged_path_arguments api path args :
  distinct_keys args →
  ∃ sent,
    paged_path api path args = makePath api path (Some sent) ∧
    obj_get sent "cursor" = obj_get args "after" ∧
    obj_get sent "limit" = obj_get args "first" ∧
    obj_get sent "pageSize" = obj_get args "first" ∧
    obj_has sent "after" = false ∧
    obj_has sent "first" = false ∧
    ∀ k, k ∉ ["after"; "first"; "cursor"; "limit"; "pageSize"] →
         obj_has sent k = obj_has args k ∧ obj_get sent k = obj_get args k.
Proof.
  intros Hargs.
  set (sent := obj_spread (omit args ["after"; "first"])
                 [("cursor", obj_get args "after");
                  ("limit", obj_get args "first");
                  ("pageSize", obj_get args "first")]).
  assert (∀ k,
    obj_has sent k
    = obj_has [("cursor", obj_get args "after");
               ("limit", obj_get args "first");
               ("pageSize", obj_get args "first")] k
      || obj_has (omit args ["after"; "first"]) k ∧
    obj_get sent k
    = if obj_has [("cursor", obj_get args "after");
                  ("limit", obj_get args "first");
                  ("pageSize", obj_get args "first")] k
      then obj_get [("cursor", obj_get args "after");
                    ("limit", obj_get args "first");
                    ("pageSize", obj_get args "first")] k
      else obj_get (omit args ["after"; "first"]) k) as Hlookup.
  { intros k. apply obj_spread_lookup; [by apply omit_distinct|].
    unfold distinct_keys. compute_done. }
  exists sent. split_and!; [done|..].
  - by rewrite (proj2 (Hlookup "cursor")).
  - by rewrite (proj2 (Hlookup "limit")).
  - by rewrite (proj2 (Hlookup "pageSize")).
  - rewrite (proj1 (Hlookup "after")), obj_has_omit.
    rewrite (bool_decide_eq_false_2 (_ ∉ _))
      by (intros Hnot; apply Hnot; compute_done).
    by rewrite andb_false_r.
  - rewrite (proj1 (Hlookup "first")), obj_has_omit.
    rewrite (bool_decide_eq_false_2 (_ ∉ _))
      by (intros Hnot; apply Hnot; compute_done).
    by rewrite andb_false_r.
  - intros k Hk. rewrite !not_elem_of_cons in Hk.
    destruct Hk as (Ha & Hf & Hc & Hl & Hp & _).
    assert (k ∉ ["after"; "first"]) as Hk.
    { rewrite !not_elem_of_cons. split_and!; [done..|apply not_elem_of_nil]. }
    rewrite (proj1 (Hlookup k)), (proj2 (Hlookup k)).
    rewrite obj_has_omit, (obj_get_omit _ _ _ Hk).
    rewrite (bool_decide_eq_true_2 _ Hk), andb_true_r.
    cbn [obj_has obj_get].
    destruct (String.eqb_spec "cursor" k); [congruence|].
    destruct (String.eqb_spec "limit" k); [congruence|].
    destruct (String.eqb_spec "pageSize" k); [congruence|]. done.
Qed.

Lemma get_index_nullish (cursors : value) i :
  nullish cursors = true →
  get_index cursors i
  = Rejected (VError "TypeError: Cannot read properties of undefined").
Proof. intros Hc. unfold get_index. by rewrite Hc. Qed.

(** X10. A page that has an item but whose [meta] has no [cursors] makes the
    call reject with the [TypeError] of reading an index of [undefined]. *)
Theorem getPaginatedConnection_missing_cursors api path args item elems m :
  paged_fetch urlJoin api path args = Resolved (VArr (item :: elems) (Some m)) →
  truthy m = true →
  nullish (get_named m "cursors") = true →
  getPaginatedConnection urlJoin api path args
  = Rejected (VError "TypeError: Cannot read properties of undefined").
Proof.
  intros Hfetch Hm Hc. unfold getPaginatedConnection.
  rewrite (get_resolved _ _ _ _ Hfetch) by done. simpl. rewrite Hm. simpl.
  unfold paged_edges. rewrite imap_cons. cbn [mapM].
  by rewrite (get_index_nullish _ (Z.of_nat 0) Hc).
Qed.

(** X11. On a page whose [cursors] is an array, there is one edge for each item,
    in the order of the items; the cursor of edge [i] is [cursors[i]], which
    is [undefined] where [cursors] is too short; [hasPreviousPage] is
    whether [after] is truthy and [hasNextPage] is the backend's, whatever
    it is. *)
Theorem getPaginatedConnection_edges api path args elems m cs cm :
  paged_fetch urlJoin api path args = Resolved (VArr elems (Some m)) →
  truthy m = true →
  get_named m "cursors" = VArr cs cm →
  ∃ connection,
    getPaginatedConnection urlJoin api path args = Resolved (Some connection) ∧
    node <$> edges connection = elems ∧
    (∀ i edge, edges connection !! i = Some edge →
               cursor edge = default VUndefined (cs !! i)) ∧
    hasPreviousPage (pageInfo connection)
    = VBool (truthy (obj_get args "after")) ∧
    hasNextPage (pageInfo connection) = get_named m "hasNextPage".
Proof.
  intros Hfetch Hm Hcs. eexists. split_and!.
  - apply (getPaginatedConnection_page _ _ _ _ _ _ Hfetch Hm).
    right. by rewrite Hcs.
  - simpl. apply list_eq. intros i.
    rewrite list_lookup_fmap, list_lookup_imap. by destruct (elems !! i).
  - intros i edge. simpl. rewrite list_lookup_imap, Hcs.
    destruct (elems !! i); [|done]. intros [= <-]. simpl.
    unfold elem_at. rewrite (proj2 (Z.ltb_ge _ _)) by lia.
    by rewrite Nat2Z.id.
  - done.
  - done.
Qed.

(** X12. Any falsy result of the backend, not [null] alone, resolves the call
    with [null], before [meta] is looked at. *)
Theorem getPaginatedConnection_falsy_result api path args items :
  paged_fetch urlJoin api path args = Resolved items →
  truthy items = false →
  getPaginatedConnection urlJoin api path args = Resolved None.
Proof.
  intros Hfetch Hfalsy. unfold getPaginatedConnection.
  rewrite (get_resolved _ _ _ _ Hfetch) by by destruct items.
  simpl. by rewrite Hfalsy.
Qed.

(** X13. A request that fails with an [Error] makes both strategies reject, with
    that error. *)
Theorem request_failure_rejects api path args e :
  isError e = true →
  (paged_fetch urlJoin api path args = Rejected e →
   getPaginatedConnection urlJoin api path args = Rejected e) ∧
  (unpaged_fetch urlJoin api path args = Rejected e →
   getUnpaginatedConnection urlJoin offsetToCursor cursorToOffset api path args
   = Rejected e).
Proof.
  intros He. split; intros Hfetch.
  - unfold getPaginatedConnection, get, makePath, load.
    unfold paged_fetch in Hfetch. rewrite Hfetch. simpl.
    unfold settle. by rewrite He.
  - unfold getUnpaginatedConnection, get, makePath, load.
    unfold unpaged_fetch in Hfetch. rewrite Hfetch. simpl.
    unfold settle. by rewrite He.
Qed.

End PagedMore.

(** ** More on the unpaged strategy *)

Section UnpagedMore.
Variable urlJoin : string → string → string.
Variable offsetToCursor : Z → string.
Variable cursorToOffset : string → option Z.
Implicit Types (api : HttpApi) (path : string) (args : Obj).
Implicit Types (elems : list value) (items : value) (m : option value).

Lemma obj_get_missing (o : Obj) k : obj_has o k = false → obj_get o k = VUndefined.
Proof.
  intros Hhas. apply obj_get_absent. intros Hin%obj_has_keys. congruence.
Qed.

Lemma pick_pagination args :
  pick args PAGINATION_ARG_KEYS
  = (if obj_has args "after" then [("after", obj_get args "after")] else [])
    ++ (if obj_has args "first" then [("first", obj_get args "first")] else []).
Proof.
  unfold pick, PAGINATION_ARG_KEYS. cbn [foldl].
  by destruct (obj_has args "after"), (obj_has args "first").
Qed.

(** What [pick] leaves of the arguments: [after] and [first], nothing
    else. *)
Lemma pick_pagination_get args k :
  obj_get (pick args PAGINATION_ARG_KEYS) k
  = if bool_decide (k ∈ ["after"; "first"]) then obj_get args k
    else VUndefined.
Proof.
  rewrite pick_pagination.
  destruct (decide (k = "after")) as [->|Ha].
  { rewrite bool_decide_eq_true_2 by compute_done.
    destruct (obj_has args "after") eqn:Hhas; [done|].
    rewrite (obj_get_missing _ _ Hhas). by destruct (obj_has args "first"). }
  destruct (decide (k = "first")) as [->|Hf].
  { rewrite bool_decide_eq_true_2 by compute_done.
    destruct (obj_has args "first") eqn:Hhas.
    - by destruct (obj_has args "after").
    - rewrite (obj_get_missing _ _ Hhas). by destruct (obj_has args "after"). }
  rewrite bool_decide_eq_false_2.
  - destruct (obj_has args "after"), (obj_has args "first"); cbn [app obj_get];
      try (destruct (String.eqb_spec "after" k); [congruence|]);
      try (destruct (String.eqb_spec "first" k); [congruence|]); done.
  - rewrite !elem_of_cons. intros [?|[?|?%elem_of_nil]]; done.
Qed.

Lemma js_slice_forward {A} (l : list A) (start endOffset : Z) :
  0 ≤ start → 0 ≤ endOffset ≤ Z.of_nat (length l) →
  js_slice l (Z.max (start - 0) 0)
    (Z.of_nat (length l) - (Z.of_nat (length l) - endOffset))
  = take (Z.to_nat (endOffset - start)) (drop (Z.to_nat start) l).
Proof.
  intros Hstart Hend. unfold js_slice.
  rewrite (proj2 (Z.ltb_ge _ _)) by lia.
  rewrite (proj2 (Z.ltb_ge _ _)) by lia.
  destruct (decide (start ≤ Z.of_nat (length l))) as [Hle|Hgt].
  - rewrite !Z.max_l, !Z.min_l by lia. do 2 f_equal; lia.
  - rewrite (drop_ge l (Z.to_nat start)) by lia.
    rewrite (drop_ge l) by lia. by rewrite !take_nil.
Qed.

Lemma take_drop_bounded {A} (l : list A) (start n : Z) :
  0 ≤ start → 0 ≤ n →
  take (Z.to_nat (Z.min (Z.of_nat (length l)) (start + n) - start))
       (drop (Z.to_nat start) l)
  = take (Z.to_nat n) (drop (Z.to_nat start) l).
Proof.
  intros Hstart Hn.
  destruct (decide (start + n ≤ Z.of_nat (length l))) as [Hle|Hgt].
  - rewrite Z.min_r by lia. do 2 f_equal. lia.
  - rewrite Z.min_l by lia.
    rewrite !take_ge; [done|rewrite length_drop; lia..].
Qed.

(** X14. With a [first] of [n], the edges are the [n] items that follow the
    offset of [after] (or the start of the array when [after] is no
    cursor), the cursor of each edge is the cursor of its index in the
    whole array, [hasNextPage] tells whether items are left after them, and
    [hasPreviousPage] is false. *)
Theorem getUnpaginatedConnection_page api path args elems m n :
  unpaged_fetch urlJoin api path args = Resolved (VArr elems m) →
  obj_get args "first" = VNum n →
  0 ≤ n →
  let start :=
    Z.max (getOffsetWithDefault cursorToOffset (obj_get args "after") (-1)) (-1)
    + 1 in
  ∃ connection,
    getUnpaginatedConnection urlJoin offsetToCursor cursorToOffset api path args
    = Resolved (Some connection) ∧
    node <$> edges connection
    = take (Z.to_nat n) (drop (Z.to_nat start) elems) ∧
    (∀ i edge, edges connection !! i = Some edge →
               cursor edge = VStr (offsetToCursor (start + Z.of_nat i))) ∧
    hasNextPage (pageInfo connection)
    = VBool (start + n <? Z.of_nat (length elems)) ∧
    hasPreviousPage (pageInfo connection) = VBool false ∧
    meta connection = [].
Proof.
  intros Hfetch Hfirst Hn start.
  rewrite (getUnpaginatedConnection_array _ _ _ _ _ _ _ _ Hfetch).
  unfold connectionFromArray, connectionFromArraySlice.
  rewrite !pick_pagination_get.
  rewrite (bool_decide_eq_true_2 ("after" ∈ _)) by compute_done.
  rewrite (bool_decide_eq_true_2 ("first" ∈ _)) by compute_done.
  rewrite (bool_decide_eq_false_2 ("before" ∈ _)) by compute_done.
  rewrite (bool_decide_eq_false_2 ("last" ∈ _)) by compute_done.
  rewrite Hfirst. cbn [count_arg getOffsetWithDefault nullish].
  rewrite (proj2 (Z.leb_le 0 n)) by done.
  cbn [invariant mbind Outcome_bind mret Outcome_ret fmap Outcome_fmap].
  replace (Z.max (Z.max (0 - 1)
             (getOffsetWithDefault cursorToOffset (obj_get args "after") (-1)))
             (-1) + 1) with start by (unfold start; lia).
  assert (0 ≤ start) as Hstart by (unfold start; lia).
  rewrite !Z.min_id, Z.add_0_l.
  rewrite js_slice_forward by lia.
  rewrite take_drop_bounded by done.
  eexists. split; [reflexivity|]. cbn [edges pageInfo meta with_empty_meta
    relay_edges relay_pageInfo hasNextPage hasPreviousPage].
  split_and!; [| |f_equal|done|done].
  - apply list_eq. intros i.
    rewrite list_lookup_fmap, list_lookup_imap. by destruct (_ !! i).
  - intros i edge. rewrite list_lookup_imap.
    destruct (_ !! i); [|done]. by intros [= <-].
  - apply eq_true_iff_eq. rewrite !Z.ltb_lt. lia.
Qed.

(** X15. Without a numeric [first], every item after the offset of [after] is
    an edge, and [hasNextPage] and [hasPreviousPage] are false. *)
Theorem getUnpaginatedConnection_unbounded api path args elems m :
  unpaged_fetch urlJoin api path args = Resolved (VArr elems m) →
  typeof (obj_get args "first") ≠ "number" →
  let start :=
    Z.max (getOffsetWithDefault cursorToOffset (obj_get args "after") (-1)) (-1)
    + 1 in
  ∃ connection,
    getUnpaginatedConnection urlJoin offsetToCursor cursorToOffset api path args
    = Resolved (Some connection) ∧
    node <$> edges connection = drop (Z.to_nat start) elems ∧
    hasNextPage (pageInfo connection) = VBool false ∧
    hasPreviousPage (pageInfo connection) = VBool false.
Proof.
  intros Hfetch Hfirst start.
  rewrite (getUnpaginatedConnection_array _ _ _ _ _ _ _ _ Hfetch).
  unfold connectionFromArray, connectionFromArraySlice.
  rewrite !pick_pagination_get.
  rewrite (bool_decide_eq_true_2 ("after" ∈ _)) by compute_done.
  rewrite (bool_decide_eq_true_2 ("first" ∈ _)) by compute_done.
  rewrite (bool_decide_eq_false_2 ("before" ∈ _)) by compute_done.
  rewrite (bool_decide_eq_false_2 ("last" ∈ _)) by compute_done.
  assert (count_arg "first" (obj_get args "first") = Resolved None) as ->.
  { by destruct (obj_get args "first"). }
  cbn [count_arg getOffsetWithDefault nullish].
  cbn [invariant mbind Outcome_bind mret Outcome_ret fmap Outcome_fmap].
  replace (Z.max (Z.max (0 - 1)
             (getOffsetWithDefault cursorToOffset (obj_get args "after") (-1)))
             (-1) + 1) with start by (unfold start; lia).
  assert (0 ≤ start) as Hstart by (unfold start; lia).
  rewrite !Z.min_id, Z.add_0_l.
  rewrite js_slice_forward by lia.
  eexists. split; [reflexivity|]. cbn [edges pageInfo meta with_empty_meta
    relay_edges relay_pageInfo hasNextPage hasPreviousPage].
  split_and!; [|done..].
  rewrite take_ge by (rewrite length_drop; lia).
  apply list_eq. intros i.
  rewrite list_lookup_fmap, list_lookup_imap. by destruct (_ !! i).
Qed.


(** X17. The unpaged strategy never reports a previous page: [last] is not among
    the arguments that reach the slicing. *)
Theorem getUnpaginatedConnection_no_previous_page api path args connection :
  getUnpaginatedConnection urlJoin offsetToCursor cursorToOffset api path args
  = Resolved (Some connection) →
  hasPreviousPage (pageInfo connection) = VBool false ∧
  obj_get (pick args PAGINATION_ARG_KEYS) "last" = VUndefined ∧
  obj_get (pick args PAGINATION_ARG_KEYS) "before" = VUndefined.
Proof.
  assert (obj_get (pick args PAGINATION_ARG_KEYS) "last" = VUndefined) as Hlast.
  { rewrite pick_pagination_get. by rewrite bool_decide_eq_false_2 by compute_done. }
  assert (obj_get (pick args PAGINATION_ARG_KEYS) "before" = VUndefined) as Hbefore.
  { rewrite pick_pagination_get. by rewrite bool_decide_eq_false_2 by compute_done. }
  intros Hres. split_and!; [|done..].
  unfold getUnpaginatedConnection in Hres.
  destruct (get _ _ _ _) as [items|]; [|done]. simpl in Hres.
  destruct items; try done. simpl in Hres.
  unfold connectionFromArray, connectionFromArraySlice in Hres.
  rewrite Hlast in Hres.
  destruct (count_arg "first" _) as [first|]; [|done].
  cbn [count_arg mbind Outcome_bind mret Outcome_ret] in Hres.
  by injection Hres as <-.
Qed.

End UnpagedMore.

(** ** The lists of the keys *)

(** X18. When no lookup leaves the own properties of the accumulator, the batch
    function gives one list for each key, at the place of the key: the
    items whose key it is, in arrival order; an empty list when there is
    none; and the same list wherever the key is repeated. *)
Theorem demultiplex_per_key (getKey : value → string) (keys : list string)
    (chunkedItems : list value) (i : nat) (key : string) :
  own_lookups getKey keys (returned_items chunkedItems) →
  keys !! i = Some key →
  ∃ lists,
    demultiplex getKey keys chunkedItems = Resolved lists ∧
    length lists = length keys ∧
    lists !! i
    = Some (VArr (filter (λ item, getKey item = key)
                         (returned_items chunkedItems)) None) ∧
    ((∀ item, item ∈ returned_items chunkedItems → getKey item ≠ key) →
     lists !! i = Some (VArr [] None)) ∧
    (∀ j, keys !! j = Some key → lists !! j = lists !! i).
Proof.
  intros Hown Hi. eexists. split; [by apply demultiplex_own|].
  assert (∀ j, keys !! j = Some key →
    ((λ key, VArr (items_for getKey (returned_items chunkedItems) key) None)
       <$> keys) !! j
    = Some (VArr (items_for getKey (returned_items chunkedItems) key) None))
    as Hat.
  { intros j Hj. by rewrite list_lookup_fmap, Hj. }
  split_and!.
  - by rewrite length_fmap.
  - by apply Hat.
  - rewrite (Hat i Hi). unfold items_for.
    generalize (returned_items chunkedItems). intros l Hnone. do 2 f_equal.
    induction l as [|x l IH]; [done|].
    rewrite filter_cons_False.
    + apply IH. intros item Hin. apply Hnone. by right.
    + apply Hnone. by left.
  - intros j Hj. by rewrite (Hat j Hj), (Hat i Hi).
Qed.

Lemma demultiplex_per_key_witness :
  ∃ lists,
    demultiplex id_key ["a"; "b"; "a"]
      [VArr [thing "b"; thing "z"; VNull] None; VNull; VArr [thing "b"] None]
    = Resolved lists ∧
    length lists = 3%nat ∧
    lists !! 1%nat = Some (VArr [thing "b"; thing "b"] None).
Proof.
  assert (own_lookups id_key ["a"; "b"; "a"]
            (returned_items
               [VArr [thing "b"; thing "z"; VNull] None; VNull;
                VArr [thing "b"] None])) as Hown.
  { split; [compute_done|]. intros item Hitem. vm_compute in Hitem.
    repeat (apply elem_of_cons in Hitem as [-> | Hitem]); [compute_done..|].
    by apply elem_of_nil in Hitem. }
  destruct (demultiplex_per_key id_key ["a"; "b"; "a"] _ 1 "b" Hown eq_refl)
    as (lists & Hres & Hlen & Hat & _).
  exists lists. split_and!; [done|done|].
  etransitivity; [exact Hat|]. vm_compute. reflexivity.
Defined.

Lemma createLoader_chunk_failure_rejects_batch_witness :
  createLoader_batch
    {| _origin := ""; _apiBase := ""; _externalOrigin := "";
       qs := querystring; numKeysPerChunk := 2;
       request := fixed_backend
         [("/things?id=a,b", Resolved (VArr [thing "a"] None));
          ("/things?id=c", Rejected (VError "503"))] |}
    things_path id_key ["a"; "b"; "c"] [0; 1]%nat
  = Some (Rejected (VError "503")).
Proof.
  set (api := {| _origin := ""; _apiBase := ""; _externalOrigin := "";
       qs := querystring; numKeysPerChunk := 2;
       request := fixed_backend
         [("/things?id=a,b", Resolved (VArr [thing "a"] None));
          ("/things?id=c", Rejected (VError "503"))] |}).
  assert (complete (length (chunk ["a"; "b"; "c"] (numKeysPerChunk api)))
                   [0; 1]%nat) as Hc.
  { intros i Hi. destruct i as [|[|i]]; [compute_done..|simpl in Hi; lia]. }
  destruct (createLoader_chunk_failure_rejects_batch api things_path id_key
              ["a"; "b"; "c"] [0; 1]%nat 1 ["c"] (VError "503")
              eq_refl eq_refl Hc) as (failed & e & Hin & Hreq & Hres & _).
  rewrite Hres. vm_compute in Hin.
  apply elem_of_cons in Hin as [-> | Hin]; [discriminate Hreq|].
  apply elem_of_cons in Hin as [-> | Hin]; [|by apply elem_of_nil in Hin].
  vm_compute in Hreq. by injection Hreq as <-.
Defined.

Lemma createLoader_no_chunk_witness :
  createLoader_batch
    {| _origin := ""; _apiBase := ""; _externalOrigin := "";
       qs := querystring; numKeysPerChunk := 0;
       request := fixed_backend
         [("/things?id=a,b", Resolved (VArr [thing "a"] None))] |}
    things_path id_key ["a"; "b"] []
  = Some (Resolved [VArr [] None; VArr [] None]).
Proof.
  assert ("__proto__" ∉ ["a"; "b"]) as Hproto by compute_done.
  refine (proj2 (createLoader_no_chunk
    {| _origin := ""; _apiBase := ""; _externalOrigin := "";
       qs := querystring; numKeysPerChunk := 0;
       request := fixed_backend
         [("/things?id=a,b", Resolved (VArr [thing "a"] None))] |}
    things_path id_key ["a"; "b"] [] _ Hproto)).
  done.
Defined.

Lemma chunk_count_and_full_chunks_witness :
  length (chunk ["a"; "b"; "c"; "d"; "e"] 2) = 3%nat ∧
  (chunk ["a"; "b"; "c"; "d"; "e"] 2) !! 1%nat = Some ["c"; "d"].
Proof.
  assert (0 < 2) as Hsize by done.
  destruct (chunk_count_and_full_chunks ["a"; "b"; "c"; "d"; "e"] 2 1
              ["c"; "d"] Hsize eq_refl) as [Hlen Hfull].
  split; [exact Hlen|reflexivity].
Defined.

Lemma getPaginatedConnection_meta_passes_witness :
  ∃ connection,
    getPaginatedConnection concat_urlJoin
      (example_api
         [("http://backend/api/things?cursor=&limit=&pageSize=",
           Resolved
             (VArr [thing "a"]
                (Some (VObj [("total", VNum 41);
                             ("cursors", VArr [VStr "c0"] None);
                             ("hasNextPage", VBool false);
                             ("took", VNum 3)]))))])
      "/things" []
    = Resolved (Some connection) ∧
    obj_has (meta connection) "cursors" = false ∧
    obj_get (meta connection) "total" = VNum 41 ∧
    obj_get (meta connection) "took" = VNum 3.
Proof.
  destruct (getPaginatedConnection_meta_passes concat_urlJoin
      (example_api
         [("http://backend/api/things?cursor=&limit=&pageSize=",
           Resolved
             (VArr [thing "a"]
                (Some (VObj [("total", VNum 41);
                             ("cursors", VArr [VStr "c0"] None);
                             ("hasNextPage", VBool false);
                             ("took", VNum 3)]))))])
      "/things" [] _ _ eq_refl (or_intror eq_refl))
    as (connection & Hres & Hcursors & _ & Hother).
  exists connection. split_and!; [done|done|..].
  - by rewrite (proj2 (Hother "total" ltac:(discriminate) ltac:(discriminate))).
  - by rewrite (proj2 (Hother "took" ltac:(discriminate) ltac:(discriminate))).
Defined.

Lemma paged_path_arguments_witness :
  ∃ sent,
    paged_path (example_api []) "/things"
      [("after", VStr "c9"); ("color", VStr "red"); ("first", VNum 5)]
    = makePath (example_api []) "/things" (Some sent) ∧
    obj_get sent "cursor" = VStr "c9" ∧
    obj_get sent "limit" = VNum 5 ∧
    obj_get sent "pageSize" = VNum 5 ∧
    obj_has sent "after" = false ∧
    obj_get sent "color" = VStr "red".
Proof.
  assert (distinct_keys
            [("after", VStr "c9"); ("color", VStr "red"); ("first", VNum 5)])
    as Hargs.
  { unfold distinct_keys. compute_done. }
  destruct (paged_path_arguments (example_api []) "/things" _ Hargs)
    as (sent & Hpath & Hcursor & Hlimit & Hsize & Hafter & _ & Hother).
  exists sent. split_and!; [done..|].
  assert ("color" ∉ ["after"; "first"; "cursor"; "limit"; "pageSize"]) as Hk
    by compute_done.
  by rewrite (proj2 (Hother "color" Hk)).
Defined.

Lemma getPaginatedConnection_missing_cursors_witness :
  getPaginatedConnection concat_urlJoin
    (example_api
       [("http://backend/api/things?cursor=&limit=&pageSize=",
         Resolved (VArr [thing "a"] (Some (VObj [("hasNextPage", VBool false)]))))])
    "/things" []
  = Rejected (VError "TypeError: Cannot read properties of undefined").
Proof.
  exact (getPaginatedConnection_missing_cursors concat_urlJoin
    (example_api
       [("http://backend/api/things?cursor=&limit=&pageSize=",
         Resolved (VArr [thing "a"] (Some (VObj [("hasNextPage", VBool false)]))))])
    "/things" [] (thing "a") [] (VObj [("hasNextPage", VBool false)])
    eq_refl eq_refl eq_refl).
Defined.

Lemma getPaginatedConnection_edges_witness :
  ∃ connection,
    getPaginatedConnection concat_urlJoin
      (example_api
         [("http://backend/api/things?cursor=c9&limit=&pageSize=",
           Resolved
             (VArr [thing "a"; thing "b"]
                (Some (VObj [("cursors", VArr [VStr "c10"] None)]))))])
      "/things" [("after", VStr "c9")]
    = Resolved (Some connection) ∧
    node <$> edges connection = [thing "a"; thing "b"] ∧
    cursor <$> edges connection = [VStr "c10"; VUndefined] ∧
    hasPreviousPage (pageInfo connection) = VBool true ∧
    hasNextPage (pageInfo connection) = VUndefined.
Proof.
  destruct (getPaginatedConnection_edges concat_urlJoin
      (example_api
         [("http://backend/api/things?cursor=c9&limit=&pageSize=",
           Resolved
             (VArr [thing "a"; thing "b"]
                (Some (VObj [("cursors", VArr [VStr "c10"] None)]))))])
      "/things" [("after", VStr "c9")] _ _ [VStr "c10"] None
      eq_refl eq_refl eq_refl)
    as (connection & Hres & Hnodes & Hcursors & Hprev & Hnext).
  exists connection. split_and!; [done|done| |done|done].
  destruct (edges connection) as [|e0 [|e1 [|]]] eqn:He; try discriminate Hnodes.
  simpl. by rewrite (Hcursors 0%nat e0 eq_refl), (Hcursors 1%nat e1 eq_refl).
Defined.

Lemma getPaginatedConnection_falsy_result_witness :
  getPaginatedConnection concat_urlJoin
    (example_api
       [("http://backend/api/things?cursor=&limit=&pageSize=", Resolved (VNum 0))])
    "/things" []
  = Resolved None.
Proof.
  exact (getPaginatedConnection_falsy_result concat_urlJoin
    (example_api
       [("http://backend/api/things?cursor=&limit=&pageSize=", Resolved (VNum 0))])
    "/things" [] (VNum 0) eq_refl eq_refl).
Defined.

Lemma request_failure_rejects_witness :
  getPaginatedConnection concat_urlJoin
    (example_api
       [("http://backend/api/things?cursor=&limit=&pageSize=",
         Rejected (VError "500"))])
    "/things" []
  = Rejected (VError "500") ∧
  getUnpaginatedConnection concat_urlJoin relay.offsetToCursor
    relay.cursorToOffset
    (example_api [("http://backend/api/things", Rejected (VError "500"))])
    "/things" []
  = Rejected (VError "500").
Proof.
  split.
  - by apply (request_failure_rejects concat_urlJoin relay.offsetToCursor
                relay.cursorToOffset
                (example_api
                   [("http://backend/api/things?cursor=&limit=&pageSize=",
                     Rejected (VError "500"))])
                "/things" [] (VError "500") eq_refl).
  - by apply (request_failure_rejects concat_urlJoin relay.offsetToCursor
                relay.cursorToOffset
                (example_api [("http://backend/api/things", Rejected (VError "500"))])
                "/things" [] (VError "500") eq_refl).
Defined.

(** Ten numbers; the page of three after the cursor of offset 2. *)
Lemma getUnpaginatedConnection_page_witness :
  ∃ connection,
    getUnpaginatedConnection concat_urlJoin relay.offsetToCursor
      relay.cursorToOffset
      (example_api [("http://backend/api/things",
                     Resolved (VArr (VNum <$> [10; 11; 12; 13; 14; 15; 16; 17; 18; 19])
                                    None))])
      "/things" [("after", VStr "YXJyYXljb25uZWN0aW9uOjI="); ("first", VNum 3)]
    = Resolved (Some connection) ∧
    node <$> edges connection = [VNum 13; VNum 14; VNum 15] ∧
    hasNextPage (pageInfo connection) = VBool true.
Proof.
  assert (0 ≤ 3) as Hn by done.
  destruct (getUnpaginatedConnection_page concat_urlJoin relay.offsetToCursor
      relay.cursorToOffset
      (example_api [("http://backend/api/things",
                     Resolved (VArr (VNum <$> [10; 11; 12; 13; 14; 15; 16; 17; 18; 19])
                                    None))])
      "/things" [("after", VStr "YXJyYXljb25uZWN0aW9uOjI="); ("first", VNum 3)]
      _ _ 3 eq_refl eq_refl Hn)
    as (connection & Hres & Hnodes & _ & Hnext & _).
  exists connection. split_and!; [done| |].
  - etransitivity; [exact Hnodes|]. vm_compute. reflexivity.
  - etransitivity; [exact Hnext|]. vm_compute. reflexivity.
Defined.

(** Ten numbers; everything after the cursor of offset 7. *)
Lemma getUnpaginatedConnection_unbounded_witness :
  ∃ connection,
    getUnpaginatedConnection concat_urlJoin relay.offsetToCursor
      relay.cursorToOffset
      (example_api [("http://backend/api/things",
                     Resolved (VArr (VNum <$> [10; 11; 12; 13; 14; 15; 16; 17; 18; 19])
                                    None))])
      "/things" [("after", VStr "YXJyYXljb25uZWN0aW9uOjc=")]
    = Resolved (Some connection) ∧
    node <$> edges connection = [VNum 18; VNum 19] ∧
    hasNextPage (pageInfo connection) = VBool false.
Proof.
  assert (typeof (obj_get [("after", VStr "YXJyYXljb25uZWN0aW9uOjc=")] "first")
          ≠ "number") as Hfirst by discriminate.
  destruct (getUnpaginatedConnection_unbounded concat_urlJoin relay.offsetToCursor
      relay.cursorToOffset
      (example_api [("http://backend/api/things",
                     Resolved (VArr (VNum <$> [10; 11; 12; 13; 14; 15; 16; 17; 18; 19])
                                    None))])
      "/things" [("after", VStr "YXJyYXljb25uZWN0aW9uOjc=")]
      _ _ eq_refl Hfirst)
    as (connection & Hres & Hnodes & Hnext & _).
  exists connection. split_and!; [done| |done].
  etransitivity; [exact Hnodes|]. vm_compute. reflexivity.
Defined.


(** [last] goes to the backend as a filter and has no part in the
    slicing. *)
Lemma getUnpaginatedConnection_no_previous_page_witness :
  ∃ connection,
    getUnpaginatedConnection concat_urlJoin relay.offsetToCursor
      relay.cursorToOffset
      (example_api [("http://backend/api/things?last=1",
                     Resolved (VArr [VNum 10; VNum 11; VNum 12] None))])
      "/things" [("last", VNum 1)]
    = Resolved (Some connection) ∧
    node <$> edges connection = [VNum 10; VNum 11; VNum 12] ∧
    hasPreviousPage (pageInfo connection) = VBool false.
Proof.
  assert (∃ connection,
    getUnpaginatedConnection concat_urlJoin relay.offsetToCursor
      relay.cursorToOffset
      (example_api [("http://backend/api/things?last=1",
                     Resolved (VArr [VNum 10; VNum 11; VNum 12] None))])
      "/things" [("last", VNum 1)]
    = Resolved (Some connection) ∧
    node <$> edges connection = [VNum 10; VNum 11; VNum 12])
    as (connection & Hres & Hnodes).
  { eexists. split; [vm_compute; reflexivity|reflexivity]. }
  exists connection. split_and!; [done..|].
  exact (proj1 (getUnpaginatedConnection_no_previous_page concat_urlJoin
                  relay.offsetToCursor relay.cursorToOffset _ _ _ _ Hres)).
Defined.

(** X19. With Node's codec, a call without [after] and [first] still sends the
    three keys, with empty values. *)
Theorem paged_path_no_arguments (api : HttpApi) (path : string) :
  qs api = querystring →
  has_char "?" path = false →
  paged_path api path [] = path +:+ "?cursor=&limit=&pageSize=".
Proof.
  intros Hqs Hpath. unfold paged_path, makePath.
  rewrite (split_on_absent _ _ Hpath), Hqs. reflexivity.
Qed.

Lemma paged_path_no_arguments_witness :
  paged_path (example_api []) "/things" [] = "/things?cursor=&limit=&pageSize=".
Proof.
  exact (paged_path_no_arguments (example_api []) "/things" eq_refl eq_refl).
Defined.
